(** * A bidirectional multimap: forward and inverse index kept in step

    Shallow embedding of [bimultimap.go].  A Go [map[K][]V] is a finite map
    from keys to lists ([gmap K (list V)]); a slice is the list of its
    elements in order.  No two entries of the two indices ever share a backing
    array (every slice stored in an index is built by [make]/[append] for that
    entry, or is the in-place result of [deleteItem] on that same entry), so
    slices are modelled by value: a lookup is the list the index holds when
    the method is called.  Methods that change the structure take the state
    and return the state after the call, next to their result.  The mutex is
    not modelled: every method is one critical section, taken here as one
    atomic step.  Ranging over a Go map has no fixed order; [Merge] therefore
    takes the order in which the keys come as an argument. *)

From stdpp Require Import gmap strings list fin_maps.

#[local] Set Warnings "-clear-no-such-hyp".

(** ** Library functions of Go used by the package *)

Section slices.
Context {T : Type} `{EqDecision T}.

(** [slices.Contains(s, v)]: linear search with [==]. *)
Fixpoint Contains (s : list T) (v : T) : bool :=
  match s with
  | [] => false
  | x :: s' => if decide (v = x) then true else Contains s' v
  end.

(** [deleteItem(slice, item)] is
    [slices.DeleteFunc(slice, func(it) bool { return item == it })]:
    the elements different from [item], in their order. *)
Definition deleteItem (slice : list T) (item : T) : list T :=
  filter (λ it, item ≠ it) slice.
End slices.

(** [m[k]] read with one result: the zero value (the nil slice) when [k] is
    not a key of the map. *)
Definition index {A B : Type} `{Countable A} (m : gmap A (list B)) (k : A) : list B :=
  default [] (m !! k).

(** [_, found := m[k]]. *)
Definition found {A B : Type} `{Countable A} (m : gmap A (list B)) (k : A) : bool :=
  bool_decide (is_Some (m !! k)).

(** ** The structure and its methods *)

Section bimultimap.
Context {K V : Type} `{Countable K, Countable V}.

Record BiMultiMap : Type := mkBiMultiMap {
  forward : gmap K (list V);
  inverse : gmap V (list K)
}.

Definition New : BiMultiMap := {| forward := ∅; inverse := ∅ |}.

Definition LookupKey (m : BiMultiMap) (key : K) : list V :=
  match forward m !! key with
  | None => []
  | Some values => values
  end.

Definition LookupValue (m : BiMultiMap) (value : V) : list K :=
  match inverse m !! value with
  | None => []
  | Some keys => keys
  end.

Definition Add (m : BiMultiMap) (key : K) (value : V) : BiMultiMap :=
  let values := match forward m !! key with
                | None => []
                | Some values => values
                end in
  if Contains values value then m
  else
    let values := values ++ [value] in
    let fwd := <[key := values]> (forward m) in
    let keys := match inverse m !! value with
                | None => []
                | Some keys => keys
                end in
    let keys := keys ++ [key] in
    {| forward := fwd; inverse := <[value := keys]> (inverse m) |}.

Definition KeyExists (m : BiMultiMap) (key : K) : bool := found (forward m) key.

Definition ValueExists (m : BiMultiMap) (value : V) : bool := found (inverse m) value.

(** The loop body shared by [DeleteKey] and [DeleteValue]:
    [idx[x] = deleteItem(idx[x], item)] for each [x] of the range. *)
Definition purge {A B : Type} `{Countable A} `{EqDecision B}
    (item : B) (idx : gmap A (list B)) (range : list A) : gmap A (list B) :=
  foldl (λ idx x, <[x := deleteItem (index idx x) item]> idx) idx range.

(** Returns the deleted values and the state after the call. *)
Definition DeleteKey (m : BiMultiMap) (key : K) : list V * BiMultiMap :=
  match forward m !! key with
  | None => ([], m)
  | Some values =>
      let fwd := delete key (forward m) in
      let inv := purge key (inverse m) values in
      (values, {| forward := fwd; inverse := inv |})
  end.

Definition DeleteValue (m : BiMultiMap) (value : V) : list K * BiMultiMap :=
  match inverse m !! value with
  | None => ([], m)
  | Some keys =>
      let inv := delete value (inverse m) in
      let fwd := purge value (forward m) keys in
      (keys, {| forward := fwd; inverse := inv |})
  end.

(** [idx[x] = deleteItem(idx[x], item); if len(idx[x]) == 0 { delete(idx, x) }] *)
Definition drop_pair {A B : Type} `{Countable A} `{EqDecision B}
    (idx : gmap A (list B)) (x : A) (item : B) : gmap A (list B) :=
  let idx := <[x := deleteItem (index idx x) item]> idx in
  if (length (index idx x) =? 0)%nat then delete x idx else idx.

Definition DeleteKeyValue (m : BiMultiMap) (key : K) (value : V) : BiMultiMap :=
  let foundValue := found (forward m) key in
  let foundKey := found (inverse m) value in
  if foundKey && foundValue then
    {| forward := drop_pair (forward m) key value;
       inverse := drop_pair (inverse m) value key |}
  else m.

Definition Clear (m : BiMultiMap) : BiMultiMap := {| forward := ∅; inverse := ∅ |}.

(** [Keys()] and [Values()] range over a Go map, whose iteration order is
    unspecified: any enumeration of the index's keys, each once. *)
Definition Keys (m : BiMultiMap) (ks : list K) : Prop :=
  ks ≡ₚ (map_to_list (forward m)).*1.

Definition Values (m : BiMultiMap) (vs : list V) : Prop :=
  vs ≡ₚ (map_to_list (inverse m)).*1.

(** [for k := range src.Keys() { for _, v := range src.LookupKey(k) { res.Add(k, v) } }]
    with [ks] the order in which the keys come. *)
Definition add_all (src : BiMultiMap) (ks : list K) (res : BiMultiMap) : BiMultiMap :=
  foldl (λ res k, foldl (λ res v, Add res k v) res (LookupKey src k)) res ks.

(** [m.Merge(other)], the keys of [m] coming in the order [ks] and those of
    [other] in the order [ks']. *)
Definition Merge (ks ks' : list K) (m other : BiMultiMap) : BiMultiMap :=
  let res := New in
  let res := add_all m ks res in
  let res := add_all other ks' res in
  res.

(** *** Histories of a structure

    The calls that change one structure in place, and the states that can
    be built from [New] by such calls and by merging. *)
Inductive call : Type :=
| CallAdd (key : K) (value : V)
| CallDeleteKey (key : K)
| CallDeleteValue (value : V)
| CallDeleteKeyValue (key : K) (value : V)
| CallClear.

Definition run (c : call) (m : BiMultiMap) : BiMultiMap :=
  match c with
  | CallAdd key value => Add m key value
  | CallDeleteKey key => (DeleteKey m key).2
  | CallDeleteValue value => (DeleteValue m value).2
  | CallDeleteKeyValue key value => DeleteKeyValue m key value
  | CallClear => Clear m
  end.

Inductive reachable : BiMultiMap → Prop :=
| reachable_New : reachable New
| reachable_run c m : reachable m → reachable (run c m)
| reachable_Merge ks ks' m other :
    reachable m → reachable other → Keys m ks → Keys other ks' →
    reachable (Merge ks ks' m other).

(** The two indices mirror each other. *)
Definition symmetric (m : BiMultiMap) : Prop :=
  ∀ k v, k ∈ LookupValue m v ↔ v ∈ LookupKey m k.

(** No list of either index repeats an element. *)
Definition distinct (m : BiMultiMap) : Prop :=
  (∀ k, NoDup (LookupKey m k)) ∧ (∀ v, NoDup (LookupValue m v)).

(** *** Structures behind pointers

    [Merge] works on three objects: the receiver, [other] (which may be the
    receiver itself) and the result it allocates.  A store maps addresses to
    structures; a method called through an address that holds nothing does
    not run. *)
Definition alloc (h : gmap positive BiMultiMap) : positive * gmap positive BiMultiMap :=
  let p := fresh (dom h) in
  (p, <[p := New]> h).

Definition LookupKey_at (src : positive) (key : K) (h : gmap positive BiMultiMap) : list V :=
  match h !! src with
  | None => []
  | Some m => LookupKey m key
  end.

Definition Add_at (res : positive) (key : K) (value : V)
    (h : gmap positive BiMultiMap) : gmap positive BiMultiMap :=
  match h !! res with
  | None => h
  | Some m => <[res := Add m key value]> h
  end.

Definition add_all_at (src res : positive) (ks : list K)
    (h : gmap positive BiMultiMap) : gmap positive BiMultiMap :=
  foldl (λ h k, foldl (λ h v, Add_at res k v h) h (LookupKey_at src k h)) h ks.

Definition Merge_at (ks ks' : list K) (m other : positive)
    (h : gmap positive BiMultiMap) : option (positive * gmap positive BiMultiMap) :=
  match h !! m, h !! other with
  | Some _, Some _ =>
      let '(res, h) := alloc h in
      let h := add_all_at m res ks h in
      let h := add_all_at other res ks' h in
      Some (res, h)
  | _, _ => None
  end.
End bimultimap.

Arguments BiMultiMap K V {_ _ _ _}.
Arguments call K V : clear implicits.

(** The structure left by a sequence of calls on a new one. *)
Definition history {K V : Type} `{Countable K, Countable V}
    (cs : list (call K V)) : BiMultiMap K V :=
  foldl (λ m c, run c m) New cs.

(** ** The fixtures of the package's tests *)

Definition biMultiMapWithMultipleKeysValues : BiMultiMap string string :=
  history [CallAdd "key1" "value1"; CallAdd "key1" "value2";
           CallAdd "key2" "value1"; CallAdd "key2" "value2"].

(** [map2] of [TestBiMultiMapMerge]. *)
Definition map2 : BiMultiMap string string :=
  history [CallAdd "key1" "value3"; CallAdd "key3" "value3";
           CallAdd "key1" "value1"; CallAdd "key3" "value1";
           CallAdd "key4" "value4"].

(** The structure of [TestBiMultiMapPut]. *)
Definition single : BiMultiMap string string := history [CallAdd "key" "value"].

(** A key and a value that both exist but were never paired. *)
Definition unpaired : BiMultiMap string string :=
  history [CallAdd "key1" "value1"; CallAdd "key2" "value2"].

(** A store holding the two inputs of [TestBiMultiMapMerge]. *)
Definition two_maps : gmap positive (BiMultiMap string string) :=
  <[2%positive := map2]> (<[1%positive := biMultiMapWithMultipleKeysValues]> ∅).

(** ** The earlier copy of the package

    The repository holds a second [bimultimap.go], written before Go had the
    [slices], [maps] and [iter] packages.  Its lookups, [Add] (which searches
    with a loop), [KeyExists], [ValueExists], [Clear] and [Merge] compute what
    the methods above compute; its three deletions go through
    [deleteElement], which allocates its result with
    [make([]T, 0, len(slice)-1)] and therefore panics on an empty slice.
    [None] stands for that panic. *)

Module Legacy.
Section legacy.
Context {K V : Type} `{Countable K, Countable V}.

Definition deleteElement {T : Type} `{EqDecision T}
    (slice : list T) (element : T) : option (list T) :=
  if (length slice =? 0)%nat then None
  else Some (filter (λ val, val ≠ element) slice).

(** [newItems := deleteElement(idx[x], element); idx[x] = newItems]
    for each [x] of the range. *)
Definition purge_each {A B : Type} `{Countable A} `{EqDecision B}
    (element : B) (idx : gmap A (list B)) (range : list A) : option (gmap A (list B)) :=
  foldl (λ acc x,
           idx ← acc;
           newItems ← deleteElement (index idx x) element;
           Some (<[x := newItems]> idx))
        (Some idx) range.

Definition DeleteKey (m : BiMultiMap K V) (key : K) : option (list V * BiMultiMap K V) :=
  match forward m !! key with
  | None => Some ([], m)
  | Some values =>
      let fwd := delete key (forward m) in
      inv ← purge_each key (inverse m) values;
      Some (values, {| forward := fwd; inverse := inv |})
  end.

Definition DeleteValue (m : BiMultiMap K V) (value : V) : option (list K * BiMultiMap K V) :=
  match inverse m !! value with
  | None => Some ([], m)
  | Some keys =>
      let inv := delete value (inverse m) in
      fwd ← purge_each value (forward m) keys;
      Some (keys, {| forward := fwd; inverse := inv |})
  end.

(** [newItems := deleteElement(idx[x], element)], then
    [idx[x] = newItems] if [len(newItems) > 0], else [delete(idx, x)]. *)
Definition replace_or_delete {A B : Type} `{Countable A} `{EqDecision B}
    (idx : gmap A (list B)) (x : A) (element : B) : option (gmap A (list B)) :=
  newItems ← deleteElement (index idx x) element;
  Some (if (0 <? length newItems)%nat then <[x := newItems]> idx else delete x idx).

Definition DeleteKeyValue (m : BiMultiMap K V) (key : K) (value : V) : option (BiMultiMap K V) :=
  let foundValue := found (forward m) key in
  let foundKey := found (inverse m) value in
  if foundKey && foundValue then
    fwd ← replace_or_delete (forward m) key value;
    inv ← replace_or_delete (inverse m) value key;
    Some {| forward := fwd; inverse := inv |}
  else Some m.
End legacy.
End Legacy.

(** A history of the earlier copy: [Add("key","value")], [DeleteValue("value")],
    [Add("key2","value2")], each of which returns. *)
Definition after_DeleteValue : option (BiMultiMap string string) :=
  m ← snd <$> Legacy.DeleteValue (Add New "key" "value") "value";
  Some (Add m "key2" "value2").

(** ** Entries with an empty list

    [DeleteKey] and [DeleteValue] write the shortened list back whatever its
    length; the other calls never leave an empty list in an index. *)

Definition tidy {K V : Type} (c : call K V) : bool :=
  match c with
  | CallDeleteKey _ | CallDeleteValue _ => false
  | _ => true
  end.

(** No entry of either index holds an empty list. *)
Definition compact {K V : Type} `{Countable K, Countable V} (m : BiMultiMap K V) : Prop :=
  (∀ k, forward m !! k ≠ Some []) ∧ (∀ v, inverse m !! v ≠ Some []).

(** A structure in which [DeleteValue] has left a key with an empty list,
    next to a pair that has nothing to do with it. *)
Definition emptied : BiMultiMap string string :=
  history [CallAdd "key" "value"; CallDeleteValue "value"; CallAdd "key2" "value2"].

(** ** Facts about the slice helpers and the two map idioms *)

Section slice_facts.
Context {T : Type} `{EqDecision T}.
Implicit Types (s : list T) (x item : T).

Lemma Contains_true s x : Contains s x = true ↔ x ∈ s.
Proof.
  induction s as [|y s IH]; simpl.
  - split; [done | by intros ?%elem_of_nil].
  - rewrite elem_of_cons. destruct (decide (x = y)) as [->|Hne].
    + split; auto.
    + rewrite IH. intuition congruence.
Qed.

Lemma Contains_false s x : Contains s x = false ↔ x ∉ s.
Proof.
  rewrite <- Contains_true. destruct (Contains s x); split; congruence.
Qed.

Lemma elem_of_deleteItem s item x : x ∈ deleteItem s item ↔ x ∈ s ∧ x ≠ item.
Proof. unfold deleteItem. rewrite list_elem_of_filter. intuition congruence. Qed.

Lemma deleteItem_absent s item : item ∉ s → deleteItem s item = s.
Proof.
  unfold deleteItem. induction s as [|y s IH]; [done|].
  rewrite not_elem_of_cons. intros [Hne Hs].
  rewrite filter_cons_True by done. by rewrite IH.
Qed.

Lemma deleteItem_gone s item : item ∉ deleteItem s item.
Proof. rewrite elem_of_deleteItem. tauto. Qed.

Lemma deleteItem_twice s item : deleteItem (deleteItem s item) item = deleteItem s item.
Proof. apply deleteItem_absent, deleteItem_gone. Qed.

Lemma deleteItem_NoDup s item : NoDup s → NoDup (deleteItem s item).
Proof. apply NoDup_filter. Qed.

Lemma deleteItem_single item : deleteItem [item] item = [].
Proof. unfold deleteItem. by rewrite filter_cons_False, filter_nil by tauto. Qed.

Lemma once_in_NoDup s x : NoDup s → x ∈ s → length (filter (λ y, y = x) s) = 1.
Proof.
  induction 1 as [|y s Hy Hnd IH]; [by intros ?%elem_of_nil|].
  intros [->|Hin]%elem_of_cons.
  - rewrite filter_cons_True by done. simpl. f_equal.
    clear IH Hnd. induction s as [|z s IH]; [done|].
    apply not_elem_of_cons in Hy as [Hne Hy].
    rewrite filter_cons_False by congruence. by apply IH.
  - rewrite filter_cons_False; [by apply IH|]. intros ->. done.
Qed.
End slice_facts.

Section index_facts.
Context {A B : Type} `{Countable A} `{EqDecision B}.
Implicit Types (idx : gmap A (list B)) (x y : A) (item : B) (l : list B).

Lemma index_Some idx x l : idx !! x = Some l → index idx x = l.
Proof. unfold index. by intros ->. Qed.

Lemma index_None idx x : idx !! x = None → index idx x = [].
Proof. unfold index. by intros ->. Qed.

Lemma index_insert idx x y l :
  index (<[x := l]> idx) y = if decide (x = y) then l else index idx y.
Proof.
  unfold index. destruct (decide (x = y)) as [->|Hne].
  - by rewrite lookup_insert_eq.
  - by rewrite lookup_insert_ne.
Qed.

Lemma index_delete idx x y :
  index (delete x idx) y = if decide (x = y) then [] else index idx y.
Proof.
  unfold index. destruct (decide (x = y)) as [->|Hne].
  - by rewrite lookup_delete_eq.
  - by rewrite lookup_delete_ne.
Qed.

Lemma found_true idx x : found idx x = true ↔ is_Some (idx !! x).
Proof. unfold found. by rewrite bool_decide_eq_true. Qed.

Lemma found_false idx x : found idx x = false ↔ idx !! x = None.
Proof. unfold found. by rewrite bool_decide_eq_false, eq_None_not_Some. Qed.

(** What the deleting loop leaves at each key of the index. *)
Lemma purge_index item idx range y :
  index (purge item idx range) y
  = if decide (y ∈ range) then deleteItem (index idx y) item else index idx y.
Proof.
  unfold purge. revert idx. induction range as [|x range IH]; intros idx; simpl.
  - done.
  - rewrite IH, index_insert.
    destruct (decide (y ∈ range)) as [Hin|Hnin], (decide (x = y)) as [->|Hne].
    + rewrite decide_True by (by left). apply deleteItem_twice.
    + by rewrite decide_True by (by right).
    + by rewrite decide_True by (by left).
    + rewrite decide_False; [done|]. rewrite elem_of_cons. intuition congruence.
Qed.

Lemma purge_lookup_other item idx range y :
  y ∉ range → purge item idx range !! y = idx !! y.
Proof.
  unfold purge. revert idx. induction range as [|x range IH]; intros idx; simpl; [done|].
  rewrite not_elem_of_cons. intros [Hne Hnin].
  rewrite IH by done. by rewrite lookup_insert_ne.
Qed.

Lemma purge_lookup_range item idx range y :
  y ∈ range → purge item idx range !! y = Some (deleteItem (index idx y) item).
Proof.
  intros Hin. pose proof (purge_index item idx range y) as Hi.
  rewrite decide_True in Hi by done.
  assert (is_Some (purge item idx range !! y)) as [l Hl].
  { clear Hi. unfold purge. revert idx.
    induction range as [|x range IH]; intros idx; simpl.
    - by apply elem_of_nil in Hin.
    - destruct (decide (y ∈ range)) as [Hr|Hr]; [by apply IH|].
      apply elem_of_cons in Hin as [->|?]; [|done].
      fold (purge item (<[x:=deleteItem (index idx x) item]> idx) range).
      rewrite purge_lookup_other by done. rewrite lookup_insert_eq. eauto. }
  rewrite Hl. f_equal. by rewrite <- Hi, (index_Some _ _ _ Hl).
Qed.

Lemma drop_pair_lookup_ne idx x item y :
  x ≠ y → drop_pair idx x item !! y = idx !! y.
Proof.
  intros Hne. unfold drop_pair.
  destruct (_ =? _)%nat; [rewrite lookup_delete_ne by done|];
    by rewrite lookup_insert_ne.
Qed.

Lemma drop_pair_lookup_eq idx x item :
  drop_pair idx x item !! x
  = match deleteItem (index idx x) item with
    | [] => None
    | l => Some l
    end.
Proof.
  unfold drop_pair. rewrite index_insert, decide_True by done.
  destruct (deleteItem (index idx x) item) as [|b l]; simpl.
  - by rewrite lookup_delete_eq.
  - by rewrite lookup_insert_eq.
Qed.

Lemma drop_pair_index idx x item y :
  index (drop_pair idx x item) y
  = if decide (x = y) then deleteItem (index idx x) item else index idx y.
Proof.
  unfold index at 1. destruct (decide (x = y)) as [<-|Hne].
  - rewrite drop_pair_lookup_eq. by destruct (deleteItem _ _).
  - by rewrite drop_pair_lookup_ne.
Qed.
End index_facts.

(** ** What each method does to the two lookups *)

Section method_facts.
Context {K V : Type} `{Countable K, Countable V}.
Implicit Types (m : BiMultiMap K V) (k key : K) (v value : V).

Lemma LookupKey_index m k : LookupKey m k = index (forward m) k.
Proof. unfold LookupKey, index. by destruct (forward m !! k). Qed.

Lemma LookupValue_index m v : LookupValue m v = index (inverse m) v.
Proof. unfold LookupValue, index. by destruct (inverse m !! v). Qed.

Lemma KeyExists_true m k : KeyExists m k = true ↔ is_Some (forward m !! k).
Proof. apply found_true. Qed.

Lemma ValueExists_true m v : ValueExists m v = true ↔ is_Some (inverse m !! v).
Proof. apply found_true. Qed.

Lemma LookupKey_absent m k : KeyExists m k = false → LookupKey m k = [].
Proof. intros Hk%found_false. unfold LookupKey. by rewrite Hk. Qed.

Lemma LookupValue_absent m v : ValueExists m v = false → LookupValue m v = [].
Proof. intros Hv%found_false. unfold LookupValue. by rewrite Hv. Qed.

Lemma elem_LookupKey_exists m k v : v ∈ LookupKey m k → KeyExists m k = true.
Proof.
  intros Hin. destruct (KeyExists m k) eqn:E; [done|].
  rewrite LookupKey_absent in Hin by done. by apply elem_of_nil in Hin.
Qed.

Lemma elem_LookupValue_exists m k v : k ∈ LookupValue m v → ValueExists m v = true.
Proof.
  intros Hin. destruct (ValueExists m v) eqn:E; [done|].
  rewrite LookupValue_absent in Hin by done. by apply elem_of_nil in Hin.
Qed.

(** [Add] *)

Lemma Add_present m k v : v ∈ LookupKey m k → Add m k v = m.
Proof.
  intros Hin. unfold Add. fold (LookupKey m k).
  by rewrite (proj2 (Contains_true _ _) Hin).
Qed.

Lemma Add_fresh m k v :
  v ∉ LookupKey m k →
  Add m k v = {| forward := <[k := LookupKey m k ++ [v]]> (forward m);
                 inverse := <[v := LookupValue m v ++ [k]]> (inverse m) |}.
Proof.
  intros Hin. unfold Add. fold (LookupKey m k) (LookupValue m v).
  by rewrite (proj2 (Contains_false _ _) Hin).
Qed.

Lemma LookupKey_Add m k v k' :
  LookupKey (Add m k v) k'
  = if decide (k = k' ∧ v ∉ LookupKey m k) then LookupKey m k ++ [v]
    else LookupKey m k'.
Proof.
  destruct (decide (v ∈ LookupKey m k)) as [Hin|Hin].
  - rewrite Add_present by done. by rewrite decide_False by tauto.
  - rewrite Add_fresh by done. rewrite !LookupKey_index; simpl.
    rewrite index_insert. destruct (decide (k = k')) as [->|Hne].
    + by rewrite decide_True.
    + by rewrite decide_False by tauto.
Qed.

Lemma LookupValue_Add m k v v' :
  LookupValue (Add m k v) v'
  = if decide (v = v' ∧ v ∉ LookupKey m k) then LookupValue m v ++ [k]
    else LookupValue m v'.
Proof.
  destruct (decide (v ∈ LookupKey m k)) as [Hin|Hin].
  - rewrite Add_present by done. by rewrite decide_False by tauto.
  - rewrite Add_fresh by done. rewrite !LookupValue_index; simpl.
    rewrite index_insert. destruct (decide (v = v')) as [->|Hne].
    + by rewrite decide_True.
    + by rewrite decide_False by tauto.
Qed.

Lemma KeyExists_Add m k v : KeyExists (Add m k v) k = true.
Proof.
  destruct (decide (v ∈ LookupKey m k)) as [Hin|Hin].
  - rewrite Add_present by done. by eapply elem_LookupKey_exists.
  - rewrite Add_fresh by done. apply found_true; simpl.
    rewrite lookup_insert_eq. eauto.
Qed.

(** [DeleteKey] and [DeleteValue] *)

Lemma DeleteKey_absent m k : KeyExists m k = false → DeleteKey m k = ([], m).
Proof. intros Hk%found_false. unfold DeleteKey. by rewrite Hk. Qed.

Lemma DeleteValue_absent m v : ValueExists m v = false → DeleteValue m v = ([], m).
Proof. intros Hv%found_false. unfold DeleteValue. by rewrite Hv. Qed.

Lemma DeleteKey_result m k : (DeleteKey m k).1 = LookupKey m k.
Proof. unfold DeleteKey, LookupKey. by destruct (forward m !! k). Qed.

Lemma DeleteValue_result m v : (DeleteValue m v).1 = LookupValue m v.
Proof. unfold DeleteValue, LookupValue. by destruct (inverse m !! v). Qed.

Lemma LookupKey_DeleteKey m k k' :
  LookupKey (DeleteKey m k).2 k' = if decide (k = k') then [] else LookupKey m k'.
Proof.
  unfold DeleteKey. destruct (forward m !! k) as [values|] eqn:E; simpl.
  - rewrite !LookupKey_index; simpl. apply index_delete.
  - destruct (decide (k = k')) as [<-|]; [|done].
    unfold LookupKey. by rewrite E.
Qed.

Lemma LookupValue_DeleteKey m k v :
  LookupValue (DeleteKey m k).2 v
  = if decide (v ∈ LookupKey m k) then deleteItem (LookupValue m v) k
    else LookupValue m v.
Proof.
  unfold DeleteKey, LookupKey. destruct (forward m !! k) as [values|] eqn:E; simpl.
  - rewrite !LookupValue_index; simpl. apply purge_index.
  - done.
Qed.

Lemma LookupValue_DeleteValue m v v' :
  LookupValue (DeleteValue m v).2 v' = if decide (v = v') then [] else LookupValue m v'.
Proof.
  unfold DeleteValue. destruct (inverse m !! v) as [keys|] eqn:E; simpl.
  - rewrite !LookupValue_index; simpl. apply index_delete.
  - destruct (decide (v = v')) as [<-|]; [|done].
    unfold LookupValue. by rewrite E.
Qed.

Lemma LookupKey_DeleteValue m v k :
  LookupKey (DeleteValue m v).2 k
  = if decide (k ∈ LookupValue m v) then deleteItem (LookupKey m k) v
    else LookupKey m k.
Proof.
  unfold DeleteValue, LookupValue. destruct (inverse m !! v) as [keys|] eqn:E; simpl.
  - rewrite !LookupKey_index; simpl. apply purge_index.
  - done.
Qed.

(** [DeleteKeyValue] *)

Lemma DeleteKeyValue_skip m k v :
  KeyExists m k = false ∨ ValueExists m v = false → DeleteKeyValue m k v = m.
Proof.
  unfold DeleteKeyValue, KeyExists, ValueExists.
  intros [-> | ->]; [by rewrite andb_false_r | done].
Qed.

Lemma DeleteKeyValue_both m k v :
  KeyExists m k = true → ValueExists m v = true →
  DeleteKeyValue m k v = {| forward := drop_pair (forward m) k v;
                            inverse := drop_pair (inverse m) v k |}.
Proof. unfold DeleteKeyValue, KeyExists, ValueExists. by intros -> ->. Qed.

Lemma LookupKey_DeleteKeyValue m k v k' :
  LookupKey (DeleteKeyValue m k v) k'
  = if decide (k = k' ∧ ValueExists m v = true) then deleteItem (LookupKey m k) v
    else LookupKey m k'.
Proof.
  destruct (KeyExists m k) eqn:Ek, (ValueExists m v) eqn:Ev.
  - rewrite DeleteKeyValue_both by done. rewrite !LookupKey_index; simpl.
    rewrite drop_pair_index. destruct (decide (k = k')) as [->|Hne].
    + by rewrite decide_True.
    + by rewrite decide_False by tauto.
  - rewrite DeleteKeyValue_skip by auto. by rewrite decide_False by (intros [_ ?]; done).
  - rewrite DeleteKeyValue_skip by auto. case_decide as Hd; [|done].
    destruct Hd as [<- _]. by rewrite LookupKey_absent.
  - rewrite DeleteKeyValue_skip by auto. by rewrite decide_False by (intros [_ ?]; done).
Qed.

Lemma LookupValue_DeleteKeyValue m k v v' :
  LookupValue (DeleteKeyValue m k v) v'
  = if decide (v = v' ∧ KeyExists m k = true) then deleteItem (LookupValue m v) k
    else LookupValue m v'.
Proof.
  destruct (KeyExists m k) eqn:Ek, (ValueExists m v) eqn:Ev.
  - rewrite DeleteKeyValue_both by done. rewrite !LookupValue_index; simpl.
    rewrite drop_pair_index. destruct (decide (v = v')) as [->|Hne].
    + by rewrite decide_True.
    + by rewrite decide_False by tauto.
  - rewrite DeleteKeyValue_skip by auto. case_decide as Hd; [|done].
    destruct Hd as [<- _]. by rewrite LookupValue_absent.
  - rewrite DeleteKeyValue_skip by auto. by rewrite decide_False by (intros [_ ?]; done).
  - rewrite DeleteKeyValue_skip by auto. by rewrite decide_False by (intros [_ ?]; done).
Qed.
End method_facts.

(** ** The invariants of reachable states *)

Section invariants.
Context {K V : Type} `{Countable K, Countable V}.
Implicit Types (m other src res : BiMultiMap K V) (k key : K) (v value : V).

Lemma symmetric_New : symmetric (New : BiMultiMap K V).
Proof.
  intros k v. unfold LookupKey, LookupValue; simpl. rewrite ?lookup_empty.
  split; by intros ?%elem_of_nil.
Qed.

Lemma distinct_New : distinct (New : BiMultiMap K V).
Proof.
  split; intros ?; unfold LookupKey, LookupValue; simpl;
    rewrite ?lookup_empty; constructor.
Qed.

Lemma symmetric_Add m k v : symmetric m → symmetric (Add m k v).
Proof.
  intros Hs k' v'. rewrite LookupKey_Add, LookupValue_Add.
  pose proof (Hs k' v'). pose proof (Hs k v'). pose proof (Hs k' v).
  repeat case_decide; rewrite ?elem_of_app, ?list_elem_of_singleton;
    destruct_and?; subst; try tauto; naive_solver.
Qed.

Lemma distinct_Add m k v : symmetric m → distinct m → distinct (Add m k v).
Proof.
  intros Hs [Hk Hv]. split.
  - intros k'. rewrite LookupKey_Add. case_decide as Hd; [|done].
    destruct Hd as [_ Hnin]. apply NoDup_app. split; [done|]. split.
    + intros x Hx ->%list_elem_of_singleton. done.
    + apply NoDup_singleton.
  - intros v'. rewrite LookupValue_Add. case_decide as Hd; [|done].
    destruct Hd as [_ Hnin]. apply NoDup_app. split; [done|]. split.
    + intros x Hx ->%list_elem_of_singleton. by apply Hnin, Hs.
    + apply NoDup_singleton.
Qed.

Lemma symmetric_DeleteKey m k : symmetric m → symmetric (DeleteKey m k).2.
Proof.
  intros Hs k' v. rewrite LookupKey_DeleteKey, LookupValue_DeleteKey.
  pose proof (Hs k' v). pose proof (Hs k v).
  repeat case_decide; rewrite ?elem_of_deleteItem, ?elem_of_nil; subst;
    try tauto; naive_solver.
Qed.

Lemma symmetric_DeleteValue m v : symmetric m → symmetric (DeleteValue m v).2.
Proof.
  intros Hs k v'. rewrite LookupKey_DeleteValue, LookupValue_DeleteValue.
  pose proof (Hs k v'). pose proof (Hs k v).
  repeat case_decide; rewrite ?elem_of_deleteItem, ?elem_of_nil; subst;
    try tauto; naive_solver.
Qed.

Lemma distinct_DeleteKey m k : distinct m → distinct (DeleteKey m k).2.
Proof.
  intros [Hk Hv]. split.
  - intros k'. rewrite LookupKey_DeleteKey. case_decide; [constructor | done].
  - intros v. rewrite LookupValue_DeleteKey.
    case_decide; [by apply deleteItem_NoDup | done].
Qed.

Lemma distinct_DeleteValue m v : distinct m → distinct (DeleteValue m v).2.
Proof.
  intros [Hk Hv]. split.
  - intros k. rewrite LookupKey_DeleteValue.
    case_decide; [by apply deleteItem_NoDup | done].
  - intros v'. rewrite LookupValue_DeleteValue. case_decide; [constructor | done].
Qed.

Lemma symmetric_DeleteKeyValue m k v : symmetric m → symmetric (DeleteKeyValue m k v).
Proof.
  intros Hs k' v'. rewrite LookupKey_DeleteKeyValue, LookupValue_DeleteKeyValue.
  pose proof (Hs k' v'). pose proof (Hs k v'). pose proof (Hs k' v).
  pose proof (elem_LookupKey_exists m k v'). pose proof (elem_LookupValue_exists m k' v).
  repeat case_decide; rewrite ?elem_of_deleteItem; destruct_and?; subst;
    try tauto; naive_solver.
Qed.

Lemma distinct_DeleteKeyValue m k v : distinct m → distinct (DeleteKeyValue m k v).
Proof.
  intros [Hk Hv]. split.
  - intros k'. rewrite LookupKey_DeleteKeyValue.
    case_decide; [by apply deleteItem_NoDup | done].
  - intros v'. rewrite LookupValue_DeleteKeyValue.
    case_decide; [by apply deleteItem_NoDup | done].
Qed.

Lemma symmetric_run c m : symmetric m → symmetric (run c m).
Proof.
  destruct c; simpl; auto using symmetric_Add, symmetric_DeleteKey,
    symmetric_DeleteValue, symmetric_DeleteKeyValue.
  intros _. apply symmetric_New.
Qed.

Lemma distinct_run c m : symmetric m → distinct m → distinct (run c m).
Proof.
  destruct c; simpl; auto using distinct_Add, distinct_DeleteKey,
    distinct_DeleteValue, distinct_DeleteKeyValue.
  intros _ _. apply distinct_New.
Qed.

(** The loops of [Merge]. *)

Lemma elem_LookupKey_Add m k v k' v' :
  v' ∈ LookupKey (Add m k v) k' ↔ v' ∈ LookupKey m k' ∨ (k = k' ∧ v' = v).
Proof.
  rewrite LookupKey_Add. case_decide as Hd.
  - destruct Hd as [<- Hnin]. rewrite elem_of_app, list_elem_of_singleton. tauto.
  - split; [tauto|]. intros [?|[<- ->]]; [done|].
    destruct (decide (v ∈ LookupKey m k)); tauto.
Qed.

Lemma elem_LookupKey_inner k vs res k' v' :
  v' ∈ LookupKey (foldl (λ res v, Add res k v) res vs) k'
  ↔ v' ∈ LookupKey res k' ∨ (k = k' ∧ v' ∈ vs).
Proof.
  revert res. induction vs as [|v vs IH]; intros res; simpl.
  - rewrite elem_of_nil. tauto.
  - rewrite IH, elem_LookupKey_Add, elem_of_cons. tauto.
Qed.

Lemma elem_LookupKey_add_all src ks res k v :
  v ∈ LookupKey (add_all src ks res) k
  ↔ v ∈ LookupKey res k ∨ (k ∈ ks ∧ v ∈ LookupKey src k).
Proof.
  unfold add_all. revert res. induction ks as [|k0 ks IH]; intros res; simpl.
  - rewrite elem_of_nil. tauto.
  - rewrite IH, elem_LookupKey_inner, elem_of_cons. naive_solver.
Qed.

Lemma symmetric_inner k vs res :
  symmetric res → symmetric (foldl (λ res v, Add res k v) res vs).
Proof.
  revert res. induction vs as [|v vs IH]; intros res Hs; simpl; [done|].
  by apply IH, symmetric_Add.
Qed.

Lemma distinct_inner k vs res :
  symmetric res → distinct res → distinct (foldl (λ res v, Add res k v) res vs).
Proof.
  revert res. induction vs as [|v vs IH]; intros res Hs Hd; simpl; [done|].
  apply IH; [by apply symmetric_Add | by apply distinct_Add].
Qed.

Lemma reachable_inner k vs res :
  reachable res → reachable (foldl (λ res v, Add res k v) res vs).
Proof.
  revert res. induction vs as [|v vs IH]; intros res Hr; simpl; [done|].
  apply IH. apply (reachable_run (CallAdd k v)), Hr.
Qed.

Lemma symmetric_add_all src ks res : symmetric res → symmetric (add_all src ks res).
Proof.
  unfold add_all. revert res. induction ks as [|k ks IH]; intros res Hs; simpl; [done|].
  by apply IH, symmetric_inner.
Qed.

Lemma distinct_add_all src ks res :
  symmetric res → distinct res → distinct (add_all src ks res).
Proof.
  unfold add_all. revert res. induction ks as [|k ks IH]; intros res Hs Hd; simpl; [done|].
  apply IH; [by apply symmetric_inner | by apply distinct_inner].
Qed.

Lemma Keys_elem m ks k : Keys m ks → k ∈ ks ↔ KeyExists m k = true.
Proof.
  unfold Keys. intros ->. rewrite KeyExists_true, list_elem_of_fmap. split.
  - intros [[k0 l] [-> Hin%elem_of_map_to_list]]. eauto.
  - intros [l Hl]. exists (k, l). split; [done|]. by apply elem_of_map_to_list.
Qed.

Lemma Keys_NoDup m ks : Keys m ks → NoDup ks.
Proof. unfold Keys. intros ->. apply NoDup_fst_map_to_list. Qed.

Lemma symmetric_Merge ks ks' m other : symmetric (Merge ks ks' m other).
Proof. unfold Merge. apply symmetric_add_all, symmetric_add_all, symmetric_New. Qed.

Lemma distinct_Merge ks ks' m other : distinct (Merge ks ks' m other).
Proof.
  unfold Merge. apply distinct_add_all.
  - apply symmetric_add_all, symmetric_New.
  - apply distinct_add_all; [apply symmetric_New | apply distinct_New].
Qed.

Lemma elem_LookupKey_Merge ks ks' m other k v :
  Keys m ks → Keys other ks' →
  v ∈ LookupKey (Merge ks ks' m other) k ↔ v ∈ LookupKey m k ∨ v ∈ LookupKey other k.
Proof.
  intros Hks Hks'. unfold Merge. rewrite !elem_LookupKey_add_all.
  rewrite (Keys_elem _ _ k Hks), (Keys_elem _ _ k Hks').
  pose proof (elem_LookupKey_exists m k v). pose proof (elem_LookupKey_exists other k v).
  assert (v ∉ LookupKey (New : BiMultiMap K V) k) by (by intros ?%elem_of_nil).
  tauto.
Qed.

Lemma reachable_invariants m : reachable m → symmetric m ∧ distinct m.
Proof.
  induction 1 as [|c m Hr [Hs Hd]|ks ks' m other _ _ _ _ _ _].
  - split; [apply symmetric_New | apply distinct_New].
  - split; [by apply symmetric_run | by apply distinct_run].
  - split; [apply symmetric_Merge | apply distinct_Merge].
Qed.
End invariants.

(** ** [Merge] through pointers is [Merge] on the structures pointed to *)

Section store.
Context {K V : Type} `{Countable K, Countable V}.
Implicit Types (m other src res : BiMultiMap K V) (h : gmap positive (BiMultiMap K V)).
Implicit Types (p q : positive) (k : K) (v : V).

Lemma inner_at q k vs h res :
  h !! q = Some res →
  foldl (λ h v, Add_at q k v h) h vs
  = <[q := foldl (λ res v, Add res k v) res vs]> h.
Proof.
  revert h res. induction vs as [|v vs IH]; intros h res Hq; simpl.
  - by rewrite insert_id.
  - unfold Add_at at 2. rewrite Hq.
    rewrite (IH _ (Add res k v)) by apply lookup_insert_eq.
    by rewrite insert_insert_eq.
Qed.

Lemma add_all_at_pure p q ks h src res :
  p ≠ q → h !! p = Some src → h !! q = Some res →
  add_all_at p q ks h = <[q := add_all src ks res]> h.
Proof.
  intros Hne. unfold add_all_at, add_all.
  revert h res. induction ks as [|k ks IH]; intros h res Hp Hq; simpl.
  - by rewrite insert_id.
  - unfold LookupKey_at at 2. rewrite Hp.
    rewrite (inner_at _ _ _ _ res) by done.
    rewrite (IH _ (foldl (λ res v, Add res k v) res (LookupKey src k))).
    + by rewrite insert_insert_eq.
    + by rewrite lookup_insert_ne by done.
    + apply lookup_insert_eq.
Qed.

Lemma alloc_fresh h : h !! (alloc h).1 = None.
Proof. simpl. apply not_elem_of_dom, is_fresh. Qed.

Lemma Merge_at_pure ks ks' p q h m other :
  h !! p = Some m → h !! q = Some other →
  Merge_at ks ks' p q h
  = Some ((alloc h).1, <[(alloc h).1 := Merge ks ks' m other]> h).
Proof.
  intros Hp Hq. unfold Merge_at. rewrite Hp, Hq.
  pose proof (alloc_fresh h) as Hfresh. simpl in *.
  set (r := fresh (dom h)) in *.
  assert (p ≠ r) by congruence. assert (q ≠ r) by congruence.
  rewrite (add_all_at_pure p r ks _ m New);
    [| done | by rewrite lookup_insert_ne | apply lookup_insert_eq].
  rewrite insert_insert_eq.
  rewrite (add_all_at_pure q r ks' _ other (add_all m ks New));
    [| done | by rewrite lookup_insert_ne | apply lookup_insert_eq].
  by rewrite insert_insert_eq.
Qed.
End store.

(** ** The stated properties of the package *)

Section properties.
Context {K V : Type} `{Countable K, Countable V}.
Implicit Types (m other : BiMultiMap K V) (h : gmap positive (BiMultiMap K V)).
Implicit Types (k x : K) (v y : V).

Lemma reachable_history (cs : list (call K V)) : reachable (history cs).
Proof.
  unfold history. induction cs as [|c cs IH] using rev_ind; simpl.
  - apply reachable_New.
  - rewrite foldl_app; simpl. by apply reachable_run.
Qed.

Lemma Add_twice m k v : Add (Add m k v) k v = Add m k v.
Proof.
  apply Add_present, elem_LookupKey_Add.
  destruct (decide (v ∈ LookupKey m k)); auto.
Qed.

Lemma drop_pair_unrelated {A B : Type} `{Countable A} `{EqDecision B}
    (idx : gmap A (list B)) (a : A) (b : B) :
  found idx a = true → b ∉ index idx a →
  drop_pair idx a b = match index idx a with
                      | [] => delete a idx
                      | _ => idx
                      end.
Proof.
  intros [l Hl]%found_true Hb. unfold drop_pair.
  rewrite deleteItem_absent by done.
  rewrite (index_Some _ _ _ Hl), insert_id by done.
  rewrite (index_Some _ _ _ Hl). by destruct l.
Qed.

(** C1. In every state reachable from the empty structure by [Add],
    [DeleteKey], [DeleteValue], [DeleteKeyValue], [Clear] and [Merge],
    a key [k] is in [LookupValue v] exactly when [v] is in [LookupKey k]. *)
Theorem symmetry_invariant m :
  reachable m → ∀ k v, k ∈ LookupValue m v ↔ v ∈ LookupKey m k.
Proof. intros Hr. apply (reachable_invariants m Hr). Qed.

(** C2. After [Add k v] on a reachable state, [LookupKey k] contains [v],
    [LookupValue v] contains [k], and [KeyExists k] and [ValueExists v]
    both return true. *)
Theorem Add_postcondition m k v :
  reachable m →
  v ∈ LookupKey (Add m k v) k
  ∧ k ∈ LookupValue (Add m k v) v
  ∧ KeyExists (Add m k v) k = true
  ∧ ValueExists (Add m k v) v = true.
Proof.
  intros Hr.
  assert (v ∈ LookupKey (Add m k v) k) as Hv.
  { apply elem_LookupKey_Add. auto. }
  assert (k ∈ LookupValue (Add m k v) v) as Hk.
  { apply (symmetry_invariant (Add m k v)); [|done].
    apply (reachable_run (CallAdd k v)), Hr. }
  split; [done|]. split; [done|]. split.
  - by eapply elem_LookupKey_exists.
  - by eapply elem_LookupValue_exists.
Qed.

(** C3. [DeleteKey k] returns exactly the values associated with [k]
    before the call (none when [k] was absent); afterwards [LookupKey k] is
    empty and [k] has been removed from the inverse list of each of those
    values.  [DeleteValue] does the same with the two indices exchanged. *)
Theorem DeleteKey_DeleteValue_spec m k v :
  ((DeleteKey m k).1 = LookupKey m k
   ∧ (KeyExists m k = false → (DeleteKey m k).1 = [])
   ∧ LookupKey (DeleteKey m k).2 k = []
   ∧ ∀ y, y ∈ LookupKey m k →
       LookupValue (DeleteKey m k).2 y = deleteItem (LookupValue m y) k
       ∧ k ∉ LookupValue (DeleteKey m k).2 y)
  ∧ ((DeleteValue m v).1 = LookupValue m v
     ∧ (ValueExists m v = false → (DeleteValue m v).1 = [])
     ∧ LookupValue (DeleteValue m v).2 v = []
     ∧ ∀ x, x ∈ LookupValue m v →
         LookupKey (DeleteValue m v).2 x = deleteItem (LookupKey m x) v
         ∧ v ∉ LookupKey (DeleteValue m v).2 x).
Proof.
  split.
  - split; [apply DeleteKey_result|]. split.
    { intros Hk. by rewrite DeleteKey_absent. }
    split.
    { rewrite LookupKey_DeleteKey. by rewrite decide_True. }
    intros y Hy. rewrite LookupValue_DeleteKey, decide_True by done.
    split; [done | apply deleteItem_gone].
  - split; [apply DeleteValue_result|]. split.
    { intros Hv. by rewrite DeleteValue_absent. }
    split.
    { rewrite LookupValue_DeleteValue. by rewrite decide_True. }
    intros x Hx. rewrite LookupKey_DeleteValue, decide_True by done.
    split; [done | apply deleteItem_gone].
Qed.

(** C4. [DeleteKeyValue k v] removes at most the pair [(k, v)]: every other
    pair is in each index after the call exactly when it was before; and
    the call changes nothing when [k] is not a key of the forward index or
    [v] is not a key of the inverse index. *)
Theorem DeleteKeyValue_single_pair m k v :
  (∀ x y, (x, y) ≠ (k, v) →
     (y ∈ LookupKey (DeleteKeyValue m k v) x ↔ y ∈ LookupKey m x)
     ∧ (x ∈ LookupValue (DeleteKeyValue m k v) y ↔ x ∈ LookupValue m y))
  ∧ (KeyExists m k = false ∨ ValueExists m v = false → DeleteKeyValue m k v = m).
Proof.
  split; [|apply DeleteKeyValue_skip].
  intros x y Hne. rewrite LookupKey_DeleteKeyValue, LookupValue_DeleteKeyValue.
  split; case_decide as Hd; try done; destruct Hd as [<- _];
    rewrite elem_of_deleteItem; naive_solver.
Qed.

(** C5. [Merge] called on two structures of the store returns a newly
    allocated structure whose pairs are those of the receiver together with
    those of [other], none repeated in any list of either index; every
    other address, the two inputs among them, holds what it held before. *)
Theorem Merge_union_fresh h p q m other ks ks' :
  h !! p = Some m → h !! q = Some other →
  Keys m ks → Keys other ks' →
  ∃ r h' res,
    Merge_at ks ks' p q h = Some (r, h')
    ∧ h !! r = None
    ∧ h' !! r = Some res
    ∧ res = Merge ks ks' m other
    ∧ (∀ a, a ≠ r → h' !! a = h !! a)
    ∧ h' !! p = Some m ∧ h' !! q = Some other
    ∧ (∀ k v, v ∈ LookupKey res k ↔ v ∈ LookupKey m k ∨ v ∈ LookupKey other k)
    ∧ (∀ k v, k ∈ LookupValue res v ↔ v ∈ LookupKey res k)
    ∧ (∀ k, NoDup (LookupKey res k))
    ∧ (∀ v, NoDup (LookupValue res v)).
Proof.
  intros Hp Hq Hks Hks'.
  pose proof (alloc_fresh h) as Hfresh.
  exists (alloc h).1, (<[(alloc h).1 := Merge ks ks' m other]> h), (Merge ks ks' m other).
  split; [by apply Merge_at_pure|]. split; [done|].
  split; [apply lookup_insert_eq|]. split; [done|].
  split; [intros a Ha; by apply lookup_insert_ne|].
  split; [rewrite lookup_insert_ne; [done | congruence]|].
  split; [rewrite lookup_insert_ne; [done | congruence]|].
  split; [intros k v; by apply elem_LookupKey_Merge|].
  split; [apply symmetric_Merge|].
  apply distinct_Merge.
Qed.

(** C6. Calling [Add k v] twice leaves exactly the state that calling it
    once leaves, whatever the state; [LookupKey k] then holds [v], and on a
    reachable state it holds it once, no element of the list being repeated. *)
Theorem Add_idempotent m k v :
  Add (Add m k v) k v = Add m k v
  ∧ v ∈ LookupKey (Add (Add m k v) k v) k
  ∧ (reachable m →
       NoDup (LookupKey (Add (Add m k v) k v) k)
       ∧ length (filter (λ y, y = v) (LookupKey (Add (Add m k v) k v) k)) = 1).
Proof.
  rewrite Add_twice. split; [done|].
  assert (v ∈ LookupKey (Add m k v) k) as Hin.
  { apply elem_LookupKey_Add. auto. }
  split; [done|]. intros Hr.
  assert (NoDup (LookupKey (Add m k v) k)) as Hnd.
  { apply (reachable_invariants (Add m k v)).
    apply (reachable_run (CallAdd k v)), Hr. }
  split; [done|]. by apply once_in_NoDup.
Qed.

(** C7. On a reachable state: when [v] is associated with [k] only,
    [DeleteKey k] leaves [v] in the inverse index with an empty list, and
    likewise [DeleteValue v] leaves [k] when [k] is associated with [v]
    only; whereas [DeleteKeyValue k v] removes the entry of [k] when [v]
    was its last value and the entry of [v] when [k] was its last key. *)
Theorem purge_on_empty_policy m k v :
  reachable m →
  (LookupValue m v = [k] →
     ValueExists (DeleteKey m k).2 v = true ∧ LookupValue (DeleteKey m k).2 v = [])
  ∧ (LookupKey m k = [v] →
       KeyExists (DeleteValue m v).2 k = true ∧ LookupKey (DeleteValue m v).2 k = [])
  ∧ (LookupKey m k = [v] → KeyExists (DeleteKeyValue m k v) k = false)
  ∧ (LookupValue m v = [k] → ValueExists (DeleteKeyValue m k v) v = false).
Proof.
  intros Hr. pose proof (symmetry_invariant m Hr k v) as Hs.
  assert (LookupValue m v = [k] → v ∈ LookupKey m k) as Hvk.
  { intros E. apply Hs. rewrite E. by left. }
  assert (LookupKey m k = [v] → k ∈ LookupValue m v) as Hkv.
  { intros E. apply Hs. rewrite E. by left. }
  split; [|split; [|split]]; intros E.
  - specialize (Hvk E). split.
    + apply found_true. unfold DeleteKey, LookupKey in *.
      destruct (forward m !! k) as [values|]; [|by apply elem_of_nil in Hvk].
      simpl. rewrite purge_lookup_range by done. eauto.
    + rewrite LookupValue_DeleteKey, decide_True, E by done. apply deleteItem_single.
  - specialize (Hkv E). split.
    + apply found_true. unfold DeleteValue, LookupValue in *.
      destruct (inverse m !! v) as [keys|]; [|by apply elem_of_nil in Hkv].
      simpl. rewrite purge_lookup_range by done. eauto.
    + rewrite LookupKey_DeleteValue, decide_True, E by done. apply deleteItem_single.
  - specialize (Hkv E).
    rewrite DeleteKeyValue_both
      by (by eapply elem_LookupValue_exists || (eapply elem_LookupKey_exists; by apply Hs)).
    apply found_false; simpl. rewrite drop_pair_lookup_eq.
    by rewrite <- LookupKey_index, E, deleteItem_single.
  - specialize (Hvk E).
    rewrite DeleteKeyValue_both
      by (by eapply elem_LookupKey_exists || (eapply elem_LookupValue_exists; by apply Hs)).
    apply found_false; simpl. rewrite drop_pair_lookup_eq.
    by rewrite <- LookupValue_index, E, deleteItem_single.
Qed.

(** C8. No method has an error result, and on what is absent the lookups
    and the deletions give the empty list: [LookupKey] and [LookupValue]
    return it, [DeleteKey] and [DeleteValue] return it and leave the state
    as it was. *)
Theorem absent_gives_empty m k v :
  (KeyExists m k = false → LookupKey m k = [] ∧ DeleteKey m k = ([], m))
  ∧ (ValueExists m v = false → LookupValue m v = [] ∧ DeleteValue m v = ([], m)).
Proof.
  split; intros Habs.
  - split; [by apply LookupKey_absent | by apply DeleteKey_absent].
  - split; [by apply LookupValue_absent | by apply DeleteValue_absent].
Qed.

(** C9. In every reachable state no list returned by [LookupKey] or by
    [LookupValue] repeats an element; every call and every merge leads
    again to such a state. *)
Theorem no_duplicates_invariant m :
  reachable m →
  ((∀ k, NoDup (LookupKey m k)) ∧ (∀ v, NoDup (LookupValue m v)))
  ∧ (∀ c, distinct (run c m))
  ∧ (∀ other ks ks', reachable other → Keys m ks → Keys other ks' →
       distinct (Merge ks ks' m other) ∧ distinct (Merge ks' ks other m)).
Proof.
  intros Hr. split; [apply (reachable_invariants m Hr)|]. split.
  - intros c. apply (reachable_invariants (run c m)). by apply reachable_run.
  - intros other ks ks' _ _ _. split; apply distinct_Merge.
Qed.

(** C10. On a reachable state where [k] and [v] both exist but are not
    paired, [DeleteKeyValue k v] changes no result of [LookupKey] or
    [LookupValue]; all it can do is drop the entry of [k] when its list was
    already empty, and the entry of [v] likewise. *)
Theorem DeleteKeyValue_unrelated_frame m k v :
  reachable m →
  KeyExists m k = true → ValueExists m v = true → v ∉ LookupKey m k →
  (∀ x, LookupKey (DeleteKeyValue m k v) x = LookupKey m x)
  ∧ (∀ y, LookupValue (DeleteKeyValue m k v) y = LookupValue m y)
  ∧ forward (DeleteKeyValue m k v)
    = match LookupKey m k with
      | [] => delete k (forward m)
      | _ => forward m
      end
  ∧ inverse (DeleteKeyValue m k v)
    = match LookupValue m v with
      | [] => delete v (inverse m)
      | _ => inverse m
      end
  ∧ (KeyExists (DeleteKeyValue m k v) k = false ↔ LookupKey m k = [])
  ∧ (ValueExists (DeleteKeyValue m k v) v = false ↔ LookupValue m v = []).
Proof.
  intros Hr Hk Hv Hnin.
  assert (k ∉ LookupValue m v) as Hnin'.
  { intros Hin. by apply Hnin, (symmetry_invariant m Hr). }
  assert (forward (DeleteKeyValue m k v)
          = match LookupKey m k with [] => delete k (forward m) | _ => forward m end) as Hf.
  { rewrite DeleteKeyValue_both by done; simpl. rewrite LookupKey_index in *.
    by apply drop_pair_unrelated. }
  assert (inverse (DeleteKeyValue m k v)
          = match LookupValue m v with [] => delete v (inverse m) | _ => inverse m end) as Hi.
  { rewrite DeleteKeyValue_both by done; simpl. rewrite LookupValue_index in *.
    by apply drop_pair_unrelated. }
  split; [|split; [|split; [done|split; [done|split]]]].
  - intros x. rewrite LookupKey_DeleteKeyValue.
    case_decide as Hd; [|done]. destruct Hd as [<- _]. by apply deleteItem_absent.
  - intros y. rewrite LookupValue_DeleteKeyValue.
    case_decide as Hd; [|done]. destruct Hd as [<- _]. by apply deleteItem_absent.
  - unfold KeyExists. rewrite found_false, Hf.
    apply KeyExists_true in Hk as [l Hl]. unfold LookupKey. rewrite Hl.
    destruct l; [by rewrite lookup_delete_eq | by rewrite Hl].
  - unfold ValueExists. rewrite found_false, Hi.
    apply ValueExists_true in Hv as [l Hl]. unfold LookupValue. rewrite Hl.
    destruct l; [by rewrite lookup_delete_eq | by rewrite Hl].
Qed.
End properties.

(** ** The properties on the fixtures of the tests *)

Lemma symmetry_invariant_witness :
  reachable biMultiMapWithMultipleKeysValues
  ∧ ("key1" ∈ LookupValue biMultiMapWithMultipleKeysValues "value1"
     ↔ "value1" ∈ LookupKey biMultiMapWithMultipleKeysValues "key1").
Proof.
  split; [apply reachable_history|].
  apply (symmetry_invariant biMultiMapWithMultipleKeysValues), reachable_history.
Defined.

Lemma Add_postcondition_witness :
  reachable biMultiMapWithMultipleKeysValues
  ∧ "value3" ∈ LookupKey (Add biMultiMapWithMultipleKeysValues "key1" "value3") "key1"
  ∧ "key1" ∈ LookupValue (Add biMultiMapWithMultipleKeysValues "key1" "value3") "value3"
  ∧ KeyExists (Add biMultiMapWithMultipleKeysValues "key1" "value3") "key1" = true
  ∧ ValueExists (Add biMultiMapWithMultipleKeysValues "key1" "value3") "value3" = true.
Proof.
  split; [apply reachable_history|].
  apply (Add_postcondition biMultiMapWithMultipleKeysValues "key1" "value3"),
    reachable_history.
Defined.

Lemma DeleteKey_DeleteValue_spec_witness :
  ((DeleteKey biMultiMapWithMultipleKeysValues "key1").1 = ["value1"; "value2"]
   ∧ LookupKey (DeleteKey biMultiMapWithMultipleKeysValues "key1").2 "key1" = []
   ∧ LookupValue (DeleteKey biMultiMapWithMultipleKeysValues "key1").2 "value1" = ["key2"])
  ∧ ((DeleteValue biMultiMapWithMultipleKeysValues "value1").1 = ["key1"; "key2"]
     ∧ LookupValue (DeleteValue biMultiMapWithMultipleKeysValues "value1").2 "value1" = []
     ∧ LookupKey (DeleteValue biMultiMapWithMultipleKeysValues "value1").2 "key1" = ["value2"])
  ∧ (DeleteKey biMultiMapWithMultipleKeysValues "foo").1 = []
  ∧ (DeleteValue biMultiMapWithMultipleKeysValues "foo").1 = [].
Proof.
  destruct (DeleteKey_DeleteValue_spec biMultiMapWithMultipleKeysValues "key1" "value1")
    as [(Hk1 & _ & Hk2 & Hk3) (Hv1 & _ & Hv2 & Hv3)].
  destruct (DeleteKey_DeleteValue_spec biMultiMapWithMultipleKeysValues "foo" "foo")
    as [(_ & Hk0 & _) (_ & Hv0 & _)].
  assert ("value1" ∈ LookupKey biMultiMapWithMultipleKeysValues "key1") as Hin1
    by (vm_compute; left).
  assert ("key1" ∈ LookupValue biMultiMapWithMultipleKeysValues "value1") as Hin2
    by (vm_compute; left).
  split; [|split; [|split]].
  - split; [by rewrite Hk1|]. split; [done|].
    rewrite (proj1 (Hk3 _ Hin1)). by vm_compute.
  - split; [by rewrite Hv1|]. split; [done|].
    rewrite (proj1 (Hv3 _ Hin2)). by vm_compute.
  - apply Hk0. by vm_compute.
  - apply Hv0. by vm_compute.
Defined.

Lemma DeleteKeyValue_single_pair_witness :
  ("value2" ∈ LookupKey (DeleteKeyValue biMultiMapWithMultipleKeysValues "key1" "value1") "key1"
   ↔ "value2" ∈ LookupKey biMultiMapWithMultipleKeysValues "key1")
  ∧ ("key2" ∈ LookupValue (DeleteKeyValue biMultiMapWithMultipleKeysValues "key1" "value1") "value1"
     ↔ "key2" ∈ LookupValue biMultiMapWithMultipleKeysValues "value1")
  ∧ DeleteKeyValue single "foo" "value" = single.
Proof.
  split; [|split].
  - apply (DeleteKeyValue_single_pair biMultiMapWithMultipleKeysValues "key1" "value1").
    intros [= ?].
  - apply (DeleteKeyValue_single_pair biMultiMapWithMultipleKeysValues "key1" "value1").
    intros [= ?].
  - apply (DeleteKeyValue_single_pair single "foo" "value"). left. by vm_compute.
Defined.

Lemma Merge_union_fresh_witness :
  two_maps !! 1%positive = Some biMultiMapWithMultipleKeysValues
  ∧ two_maps !! 2%positive = Some map2
  ∧ Keys biMultiMapWithMultipleKeysValues ["key2"; "key1"]
  ∧ Keys map2 ["key4"; "key1"; "key3"]
  ∧ ∃ r h' res,
      Merge_at ["key2"; "key1"] ["key4"; "key1"; "key3"] 1 2 two_maps = Some (r, h')
      ∧ two_maps !! r = None
      ∧ h' !! r = Some res
      ∧ res = Merge ["key2"; "key1"] ["key4"; "key1"; "key3"]
                biMultiMapWithMultipleKeysValues map2
      ∧ (∀ a, a ≠ r → h' !! a = two_maps !! a)
      ∧ h' !! 1%positive = Some biMultiMapWithMultipleKeysValues
      ∧ h' !! 2%positive = Some map2
      ∧ (∀ k v, v ∈ LookupKey res k
                ↔ v ∈ LookupKey biMultiMapWithMultipleKeysValues k ∨ v ∈ LookupKey map2 k)
      ∧ (∀ k v, k ∈ LookupValue res v ↔ v ∈ LookupKey res k)
      ∧ (∀ k, NoDup (LookupKey res k))
      ∧ (∀ v, NoDup (LookupValue res v)).
Proof.
  assert (Keys biMultiMapWithMultipleKeysValues ["key2"; "key1"]) as Hks.
  { unfold Keys. apply (bool_decide_unpack _). vm_compute. exact I. }
  assert (Keys map2 ["key4"; "key1"; "key3"]) as Hks'.
  { unfold Keys. apply (bool_decide_unpack _). vm_compute. exact I. }
  assert (two_maps !! 1%positive = Some biMultiMapWithMultipleKeysValues) as H1
    by reflexivity.
  assert (two_maps !! 2%positive = Some map2) as H2 by reflexivity.
  split; [exact H1|]. split; [exact H2|]. split; [exact Hks|]. split; [exact Hks'|].
  exact (Merge_union_fresh two_maps 1 2 _ _ _ _ H1 H2 Hks Hks').
Defined.

Lemma Add_idempotent_witness :
  reachable single
  ∧ Add (Add single "key" "value") "key" "value" = Add single "key" "value"
  ∧ "value" ∈ LookupKey (Add (Add single "key" "value") "key" "value") "key"
  ∧ NoDup (LookupKey (Add (Add single "key" "value") "key" "value") "key")
  ∧ length (filter (λ y, y = "value")
              (LookupKey (Add (Add single "key" "value") "key" "value") "key")) = 1.
Proof.
  destruct (Add_idempotent single "key" "value") as (Heq & Hin & Hnd).
  split; [apply reachable_history|]. split; [exact Heq|]. split; [exact Hin|].
  apply Hnd, reachable_history.
Defined.

Lemma purge_on_empty_policy_witness :
  reachable single
  ∧ LookupValue single "value" = ["key"]
  ∧ LookupKey single "key" = ["value"]
  ∧ (ValueExists (DeleteKey single "key").2 "value" = true
     ∧ LookupValue (DeleteKey single "key").2 "value" = [])
  ∧ (KeyExists (DeleteValue single "value").2 "key" = true
     ∧ LookupKey (DeleteValue single "value").2 "key" = [])
  ∧ KeyExists (DeleteKeyValue single "key" "value") "key" = false
  ∧ ValueExists (DeleteKeyValue single "key" "value") "value" = false.
Proof.
  assert (LookupValue single "value" = ["key"]) as Ev by (by vm_compute).
  assert (LookupKey single "key" = ["value"]) as Ek by (by vm_compute).
  destruct (purge_on_empty_policy single "key" "value" (reachable_history _))
    as (Hdk & Hdv & Hpk & Hpv).
  split; [apply reachable_history|]. split; [exact Ev|]. split; [exact Ek|].
  split; [exact (Hdk Ev)|]. split; [exact (Hdv Ek)|].
  split; [exact (Hpk Ek) | exact (Hpv Ev)].
Defined.

Lemma absent_gives_empty_witness :
  KeyExists single "foo" = false
  ∧ ValueExists single "foo" = false
  ∧ (LookupKey single "foo" = [] ∧ DeleteKey single "foo" = ([], single))
  ∧ (LookupValue single "foo" = [] ∧ DeleteValue single "foo" = ([], single)).
Proof.
  assert (KeyExists single "foo" = false) as Hk by (by vm_compute).
  assert (ValueExists single "foo" = false) as Hv by (by vm_compute).
  destruct (absent_gives_empty single "foo" "foo") as [Habs_k Habs_v].
  split; [exact Hk|]. split; [exact Hv|].
  split; [exact (Habs_k Hk) | exact (Habs_v Hv)].
Defined.

Lemma no_duplicates_invariant_witness :
  reachable biMultiMapWithMultipleKeysValues
  ∧ NoDup (LookupKey biMultiMapWithMultipleKeysValues "key1")
  ∧ NoDup (LookupValue biMultiMapWithMultipleKeysValues "value1")
  ∧ distinct (run (CallDeleteKeyValue "key1" "value1") biMultiMapWithMultipleKeysValues).
Proof.
  destruct (no_duplicates_invariant biMultiMapWithMultipleKeysValues (reachable_history _))
    as [[Hk Hv] [Hrun _]].
  split; [apply reachable_history|]. split; [apply Hk|]. split; [apply Hv | apply Hrun].
Defined.

Lemma DeleteKeyValue_unrelated_frame_witness :
  reachable unpaired
  ∧ KeyExists unpaired "key1" = true
  ∧ ValueExists unpaired "value2" = true
  ∧ ("value2" ∉ LookupKey unpaired "key1")
  ∧ (∀ x, LookupKey (DeleteKeyValue unpaired "key1" "value2") x = LookupKey unpaired x)
  ∧ (∀ y, LookupValue (DeleteKeyValue unpaired "key1" "value2") y = LookupValue unpaired y).
Proof.
  assert (KeyExists unpaired "key1" = true) as Hk by (by vm_compute).
  assert (ValueExists unpaired "value2" = true) as Hv by (by vm_compute).
  assert ("value2" ∉ LookupKey unpaired "key1") as Hnin.
  { apply Contains_false. by vm_compute. }
  destruct (DeleteKeyValue_unrelated_frame unpaired "key1" "value2"
              (reachable_history _) Hk Hv Hnin) as (Hx & Hy & _).
  split; [apply reachable_history|]. split; [exact Hk|]. split; [exact Hv|].
  split; [exact Hnin|]. split; [exact Hx | exact Hy].
Defined.

(** ** The earlier copy against the present one *)

Section legacy_facts.
Context {K V : Type} `{Countable K, Countable V}.
Implicit Types (m : BiMultiMap K V) (k : K) (v : V).

Lemma legacy_deleteElement_Some {T : Type} `{EqDecision T} (s l : list T) (x : T) :
  Legacy.deleteElement s x = Some l → l = deleteItem s x ∧ s ≠ [].
Proof.
  unfold Legacy.deleteElement, deleteItem. destruct s as [|y s]; [done|]; simpl.
  intros [= <-]. split; [|done].
  apply list_filter_iff. intros z. split; congruence.
Qed.

Lemma legacy_purge_each_Some {A B : Type} `{Countable A} `{EqDecision B}
    (b : B) (idx idx' : gmap A (list B)) (range : list A) :
  Legacy.purge_each b idx range = Some idx' → idx' = purge b idx range.
Proof.
  unfold Legacy.purge_each, purge. revert idx.
  induction range as [|x range IH]; intros idx; simpl; [congruence|].
  destruct (Legacy.deleteElement (index idx x) b) as [l|] eqn:E; simpl.
  - apply legacy_deleteElement_Some in E as [-> _]. apply IH.
  - intros Hnone. exfalso. clear -Hnone.
    induction range as [|z range IH]; simpl in *; [done | auto].
Qed.

Lemma legacy_replace_or_delete_Some {A B : Type} `{Countable A} `{EqDecision B}
    (idx idx' : gmap A (list B)) (a : A) (b : B) :
  Legacy.replace_or_delete idx a b = Some idx' → idx' = drop_pair idx a b.
Proof.
  unfold Legacy.replace_or_delete, drop_pair.
  destruct (Legacy.deleteElement (index idx a) b) as [l|] eqn:E; simpl; [|done].
  apply legacy_deleteElement_Some in E as [-> _]. intros [= <-].
  rewrite index_insert, decide_True by done.
  destruct (deleteItem (index idx a) b); simpl; [|done].
  by rewrite delete_insert_eq.
Qed.

(** X14. Where a deletion of the earlier copy returns, it returns what the
    present one returns and leaves the state the present one leaves. *)
Lemma legacy_deletions_agree m k v :
  (∀ r, Legacy.DeleteKey m k = Some r → r = DeleteKey m k)
  ∧ (∀ r, Legacy.DeleteValue m v = Some r → r = DeleteValue m v)
  ∧ (∀ m', Legacy.DeleteKeyValue m k v = Some m' → m' = DeleteKeyValue m k v).
Proof.
  split; [|split].
  - intros r. unfold Legacy.DeleteKey, DeleteKey.
    destruct (forward m !! k) as [values|]; [|congruence].
    destruct (Legacy.purge_each k (inverse m) values) as [inv|] eqn:E; simpl; [|done].
    apply legacy_purge_each_Some in E as ->. congruence.
  - intros r. unfold Legacy.DeleteValue, DeleteValue.
    destruct (inverse m !! v) as [keys|]; [|congruence].
    destruct (Legacy.purge_each v (forward m) keys) as [fwd|] eqn:E; simpl; [|done].
    apply legacy_purge_each_Some in E as ->. congruence.
  - intros m'. unfold Legacy.DeleteKeyValue, DeleteKeyValue.
    destruct (found (inverse m) v && found (forward m) k); [|congruence].
    destruct (Legacy.replace_or_delete (forward m) k v) as [fwd|] eqn:Ef; simpl; [|done].
    destruct (Legacy.replace_or_delete (inverse m) v k) as [inv|] eqn:Ei; simpl; [|done].
    apply legacy_replace_or_delete_Some in Ef as ->.
    apply legacy_replace_or_delete_Some in Ei as ->. congruence.
Qed.
End legacy_facts.

(** The earlier copy's [DeleteKeyValue] panics on a key whose list
    [DeleteValue] has left empty, where the present one drops the entry. *)
Lemma legacy_DeleteKeyValue_panics :
  ∃ m, after_DeleteValue = Some m
       ∧ KeyExists m "key" = true ∧ ValueExists m "value2" = true
       ∧ LookupKey m "key" = []
       ∧ Legacy.DeleteKeyValue m "key" "value2" = None
       ∧ KeyExists (DeleteKeyValue m "key" "value2") "key" = false.
Proof. eexists. by vm_compute. Qed.

(** ** The package's tests, run on the embedding

    The tests compare slices up to order ([assert.ElementsMatch]); the
    embedding fixes the order, so the lists are compared as they come. *)

Example TestBiMultiMapMultiPut :
  KeyExists biMultiMapWithMultipleKeysValues "key1" = true
  ∧ KeyExists biMultiMapWithMultipleKeysValues "key2" = true
  ∧ LookupKey biMultiMapWithMultipleKeysValues "key1" = ["value1"; "value2"]
  ∧ ValueExists biMultiMapWithMultipleKeysValues "value1" = true
  ∧ ValueExists biMultiMapWithMultipleKeysValues "value2" = true
  ∧ LookupValue biMultiMapWithMultipleKeysValues "value1" = ["key1"; "key2"].
Proof. by vm_compute. Qed.

Example TestBiMultiMapPutDup :
  LookupKey (history [CallAdd "key" "value"; CallAdd "key" "value"]) "key" = ["value"]
  ∧ LookupValue (history [CallAdd "key" "value"; CallAdd "key" "value"]) "value" = ["key"].
Proof. by vm_compute. Qed.

Example TestBiMultiMapDeleteMultiKey :
  let '(values, sut) := DeleteKey biMultiMapWithMultipleKeysValues "key1" in
  values = ["value1"; "value2"]
  ∧ LookupKey sut "key1" = []
  ∧ LookupKey sut "key2" = ["value1"; "value2"]
  ∧ LookupValue sut "value1" = ["key2"].
Proof. by vm_compute. Qed.

Example TestBiMultiMapDeleteMultiValue :
  let '(keys, sut) := DeleteValue biMultiMapWithMultipleKeysValues "value1" in
  keys = ["key1"; "key2"]
  ∧ LookupValue sut "value1" = []
  ∧ LookupValue sut "value2" = ["key1"; "key2"]
  ∧ LookupKey sut "key1" = ["value2"].
Proof. by vm_compute. Qed.

Example TestMultiMapDeleteKeyValue :
  let sut := DeleteKeyValue biMultiMapWithMultipleKeysValues "key1" "value1" in
  LookupKey sut "key1" = ["value2"]
  ∧ LookupKey sut "key2" = ["value1"; "value2"]
  ∧ LookupValue sut "value1" = ["key2"]
  ∧ LookupValue sut "value2" = ["key1"; "key2"].
Proof. by vm_compute. Qed.

Example TestBiMultiMapClear :
  Keys (Clear biMultiMapWithMultipleKeysValues) []
  ∧ Values (Clear biMultiMapWithMultipleKeysValues) [].
Proof. split; unfold Keys, Values; apply (bool_decide_unpack _); by vm_compute. Qed.

Example TestBiMultiMapMerge :
  let sut := Merge ["key2"; "key1"] ["key4"; "key1"; "key3"]
               biMultiMapWithMultipleKeysValues map2 in
  Keys sut ["key1"; "key2"; "key3"; "key4"]
  ∧ LookupKey sut "key1" = ["value1"; "value2"; "value3"]
  ∧ LookupKey sut "key3" = ["value3"; "value1"]
  ∧ LookupKey sut "key4" = ["value4"]
  ∧ Values sut ["value1"; "value2"; "value3"; "value4"]
  ∧ LookupValue sut "value1" = ["key2"; "key1"; "key3"]
  ∧ LookupValue sut "value3" = ["key1"; "key3"]
  ∧ LookupValue sut "value4" = ["key4"].
Proof.
  repeat split; unfold Keys, Values; try (apply (bool_decide_unpack _)); by vm_compute.
Qed.

(** ** Further facts about the indices *)

Section more_index_facts.
Context {A B : Type} `{Countable A} `{EqDecision B}.
Implicit Types (idx : gmap A (list B)) (x y : A) (item : B) (l : list B).

Lemma purge_is_Some item idx range y :
  is_Some (purge item idx range !! y) ↔ y ∈ range ∨ is_Some (idx !! y).
Proof.
  destruct (decide (y ∈ range)) as [Hin|Hnin].
  - rewrite purge_lookup_range by done. split; eauto.
  - rewrite purge_lookup_other by done. tauto.
Qed.

Lemma drop_pair_twice idx x item :
  drop_pair (drop_pair idx x item) x item = drop_pair idx x item.
Proof.
  apply map_eq. intros y. destruct (decide (x = y)) as [<-|Hne].
  - rewrite !drop_pair_lookup_eq, drop_pair_index, decide_True by done.
    by rewrite deleteItem_twice.
  - by rewrite !drop_pair_lookup_ne.
Qed.

Lemma drop_pair_not_empty idx x item y :
  idx !! y ≠ Some [] → drop_pair idx x item !! y ≠ Some [].
Proof.
  intros Hy. destruct (decide (x = y)) as [<-|Hne].
  - rewrite drop_pair_lookup_eq. by destruct (deleteItem _ _).
  - by rewrite drop_pair_lookup_ne.
Qed.

(** Appending to a list and dropping what was appended gives the list back,
    unless the entry held an empty list, which the dropping removes. *)
Lemma drop_pair_after_append idx x item :
  item ∉ index idx x → idx !! x ≠ Some [] →
  drop_pair (<[x := index idx x ++ [item]]> idx) x item = idx.
Proof.
  intros Hnin Hne. apply map_eq. intros y. destruct (decide (x = y)) as [<-|Hxy].
  - rewrite drop_pair_lookup_eq, index_insert, decide_True by done.
    unfold deleteItem. rewrite filter_app, filter_cons_False, filter_nil, app_nil_r by tauto.
    fold (deleteItem (index idx x) item). rewrite deleteItem_absent by done.
    unfold index in *. destruct (idx !! x) as [[|b l]|]; simpl; done.
  - rewrite drop_pair_lookup_ne by done. by rewrite lookup_insert_ne.
Qed.
End more_index_facts.

(** ** Further properties of the methods *)

Section more_method_facts.
Context {K V : Type} `{Countable K, Countable V}.
Implicit Types (m other src res : BiMultiMap K V) (k x : K) (v y : V).

Lemma Values_elem m vs v : Values m vs → v ∈ vs ↔ ValueExists m v = true.
Proof.
  unfold Values. intros ->. rewrite ValueExists_true, list_elem_of_fmap. split.
  - intros [[v0 l] [-> Hin%elem_of_map_to_list]]. eauto.
  - intros [l Hl]. exists (v, l). split; [done|]. by apply elem_of_map_to_list.
Qed.


Lemma KeyExists_DeleteKey m k x :
  KeyExists (DeleteKey m k).2 x = if decide (k = x) then false else KeyExists m x.
Proof.
  unfold KeyExists, found, DeleteKey.
  destruct (forward m !! k) as [values|] eqn:E; simpl.
  - destruct (decide (k = x)) as [<-|Hne].
    + rewrite lookup_delete_eq. apply bool_decide_eq_false. by intros [? ?].
    + by rewrite lookup_delete_ne.
  - destruct (decide (k = x)) as [<-|Hne]; [|done].
    rewrite E. apply bool_decide_eq_false. by intros [? ?].
Qed.

Lemma ValueExists_DeleteValue m v y :
  ValueExists (DeleteValue m v).2 y = if decide (v = y) then false else ValueExists m y.
Proof.
  unfold ValueExists, found, DeleteValue.
  destruct (inverse m !! v) as [keys|] eqn:E; simpl.
  - destruct (decide (v = y)) as [<-|Hne].
    + rewrite lookup_delete_eq. apply bool_decide_eq_false. by intros [? ?].
    + by rewrite lookup_delete_ne.
  - destruct (decide (v = y)) as [<-|Hne]; [|done].
    rewrite E. apply bool_decide_eq_false. by intros [? ?].
Qed.

Lemma ValueExists_DeleteKey m k y :
  ValueExists (DeleteKey m k).2 y = true ↔ y ∈ LookupKey m k ∨ ValueExists m y = true.
Proof.
  rewrite !ValueExists_true. unfold DeleteKey, LookupKey.
  destruct (forward m !! k) as [values|]; simpl.
  - apply purge_is_Some.
  - rewrite elem_of_nil. tauto.
Qed.

Lemma KeyExists_DeleteValue m v x :
  KeyExists (DeleteValue m v).2 x = true ↔ x ∈ LookupValue m v ∨ KeyExists m x = true.
Proof.
  rewrite !KeyExists_true. unfold DeleteValue, LookupValue.
  destruct (inverse m !! v) as [keys|]; simpl.
  - apply purge_is_Some.
  - rewrite elem_of_nil. tauto.
Qed.


(** X2. In a reachable state every pair that a lookup shows has its key
    among [Keys] and its value among [Values]. *)
Theorem enumerations_cover_lookups m ks vs k v :
  reachable m → Keys m ks → Values m vs →
  v ∈ LookupKey m k ∨ k ∈ LookupValue m v → k ∈ ks ∧ v ∈ vs.
Proof.
  intros Hr Hks Hvs Hin.
  destruct (reachable_invariants m Hr) as [Hs _].
  assert (v ∈ LookupKey m k ∧ k ∈ LookupValue m v) as [Hv Hk].
  { destruct Hin; split; try done; by apply Hs. }
  split.
  - apply (Keys_elem m ks k Hks). by eapply elem_LookupKey_exists.
  - apply (Values_elem m vs v Hvs). by eapply elem_LookupValue_exists.
Qed.

(** X3. [Add k v] touches the list of [k] and the list of [v] only; a pair
    that is already there changes nothing, a new one goes to the end of both
    lists. *)
Theorem Add_frame_and_order m k v :
  (∀ x, x ≠ k → LookupKey (Add m k v) x = LookupKey m x)
  ∧ (∀ y, y ≠ v → LookupValue (Add m k v) y = LookupValue m y)
  ∧ (v ∈ LookupKey m k → Add m k v = m)
  ∧ (v ∉ LookupKey m k →
       LookupKey (Add m k v) k = LookupKey m k ++ [v]
       ∧ LookupValue (Add m k v) v = LookupValue m v ++ [k]).
Proof.
  split; [|split; [|split]].
  - intros x Hne. rewrite LookupKey_Add. by rewrite decide_False by (intros [? _]; done).
  - intros y Hne. rewrite LookupValue_Add. by rewrite decide_False by (intros [? _]; done).
  - apply Add_present.
  - intros Hnin. rewrite LookupKey_Add, LookupValue_Add. by rewrite !decide_True.
Qed.

(** X4. On a reachable state [DeleteKey k] takes [k] out of the list of
    every value, keeping the order of the other keys, removes the entry of
    [k] and leaves the list of every other key alone; [DeleteValue v] does
    the same with the indices exchanged. *)
Theorem deletions_clear_everywhere m k v :
  reachable m →
  ((∀ y, LookupValue (DeleteKey m k).2 y = deleteItem (LookupValue m y) k)
   ∧ (∀ y, k ∉ LookupValue (DeleteKey m k).2 y)
   ∧ (∀ x, x ≠ k → LookupKey (DeleteKey m k).2 x = LookupKey m x)
   ∧ KeyExists (DeleteKey m k).2 k = false)
  ∧ ((∀ x, LookupKey (DeleteValue m v).2 x = deleteItem (LookupKey m x) v)
     ∧ (∀ x, v ∉ LookupKey (DeleteValue m v).2 x)
     ∧ (∀ y, y ≠ v → LookupValue (DeleteValue m v).2 y = LookupValue m y)
     ∧ ValueExists (DeleteValue m v).2 v = false).
Proof.
  intros Hr. destruct (reachable_invariants m Hr) as [Hs _].
  assert (∀ y, LookupValue (DeleteKey m k).2 y = deleteItem (LookupValue m y) k) as Hk.
  { intros y. rewrite LookupValue_DeleteKey. case_decide as Hin; [done|].
    symmetry. apply deleteItem_absent. by intros ?%Hs. }
  assert (∀ x, LookupKey (DeleteValue m v).2 x = deleteItem (LookupKey m x) v) as Hv.
  { intros x. rewrite LookupKey_DeleteValue. case_decide as Hin; [done|].
    symmetry. apply deleteItem_absent. by intros ?%Hs. }
  split; (split; [done|]; split; [|split]).
  - intros y. rewrite Hk. apply deleteItem_gone.
  - intros x Hne. rewrite LookupKey_DeleteKey. by rewrite decide_False.
  - rewrite KeyExists_DeleteKey. by rewrite decide_True.
  - intros x. rewrite Hv. apply deleteItem_gone.
  - intros y Hne. rewrite LookupValue_DeleteValue. by rewrite decide_False.
  - rewrite ValueExists_DeleteValue. by rewrite decide_True.
Qed.

(** X5. On a reachable state [DeleteKey] changes no answer of
    [ValueExists] and [DeleteValue] no answer of [KeyExists]: they shorten
    lists of the other index and never remove or add an entry there. *)
Theorem deletions_keep_mirror_entries m k v :
  reachable m →
  (∀ y, ValueExists (DeleteKey m k).2 y = ValueExists m y)
  ∧ (∀ x, KeyExists (DeleteValue m v).2 x = KeyExists m x).
Proof.
  intros Hr. destruct (reachable_invariants m Hr) as [Hs _]. split.
  - intros y. apply eq_true_iff_eq. rewrite ValueExists_DeleteKey.
    split; [|tauto]. intros [Hin|?]; [|done].
    eapply elem_LookupValue_exists. by apply Hs.
  - intros x. apply eq_true_iff_eq. rewrite KeyExists_DeleteValue.
    split; [|tauto]. intros [Hin|?]; [|done].
    eapply elem_LookupKey_exists. by apply Hs.
Qed.

(** X6. On a reachable state the pair is gone after [DeleteKeyValue k v]:
    the list of [k] is the old one without [v], the list of [v] the old one
    without [k]. *)
Theorem DeleteKeyValue_removes_pair m k v :
  reachable m →
  LookupKey (DeleteKeyValue m k v) k = deleteItem (LookupKey m k) v
  ∧ LookupValue (DeleteKeyValue m k v) v = deleteItem (LookupValue m v) k
  ∧ (v ∉ LookupKey (DeleteKeyValue m k v) k)
  ∧ (k ∉ LookupValue (DeleteKeyValue m k v) v).
Proof.
  intros Hr. destruct (reachable_invariants m Hr) as [Hs _].
  assert (LookupKey (DeleteKeyValue m k v) k = deleteItem (LookupKey m k) v) as Hk.
  { rewrite LookupKey_DeleteKeyValue. case_decide as Hd; [done|].
    symmetry. apply deleteItem_absent. intros Hin. apply Hd. split; [done|].
    eapply elem_LookupValue_exists. by apply Hs. }
  assert (LookupValue (DeleteKeyValue m k v) v = deleteItem (LookupValue m v) k) as Hv.
  { rewrite LookupValue_DeleteKeyValue. case_decide as Hd; [done|].
    symmetry. apply deleteItem_absent. intros Hin. apply Hd. split; [done|].
    eapply elem_LookupKey_exists. by apply Hs. }
  rewrite Hk, Hv. split; [done|]. split; [done|]. split; apply deleteItem_gone.
Qed.

(** X7. Adding a pair that is not there and deleting it again restores
    every lookup of a reachable state; it restores the state itself unless
    the key or the value had an entry with an empty list, which
    [DeleteKeyValue] then removes. *)
Theorem Add_DeleteKeyValue_roundtrip m k v :
  reachable m → v ∉ LookupKey m k →
  (∀ x, LookupKey (DeleteKeyValue (Add m k v) k v) x = LookupKey m x)
  ∧ (∀ y, LookupValue (DeleteKeyValue (Add m k v) k v) y = LookupValue m y)
  ∧ (forward m !! k ≠ Some [] → inverse m !! v ≠ Some [] →
       DeleteKeyValue (Add m k v) k v = m)
  ∧ (forward m !! k = Some [] → KeyExists (DeleteKeyValue (Add m k v) k v) k = false).
Proof.
  intros Hr Hnin. destruct (reachable_invariants m Hr) as [Hs _].
  assert (k ∉ LookupValue m v) as Hnin' by (by intros ?%Hs).
  assert (DeleteKeyValue (Add m k v) k v
          = {| forward := drop_pair (<[k := LookupKey m k ++ [v]]> (forward m)) k v;
               inverse := drop_pair (<[v := LookupValue m v ++ [k]]> (inverse m)) v k |})
    as Hstate.
  { rewrite DeleteKeyValue_both.
    - by rewrite Add_fresh.
    - apply KeyExists_Add.
    - rewrite Add_fresh by done. apply found_true; simpl. rewrite lookup_insert_eq. eauto. }
  assert (∀ l : list V, v ∉ l → deleteItem (l ++ [v]) v = l) as Hdel_v.
  { intros l Hl. unfold deleteItem.
    rewrite filter_app, filter_cons_False, filter_nil, app_nil_r by tauto.
    by apply deleteItem_absent. }
  assert (∀ l : list K, k ∉ l → deleteItem (l ++ [k]) k = l) as Hdel_k.
  { intros l Hl. unfold deleteItem.
    rewrite filter_app, filter_cons_False, filter_nil, app_nil_r by tauto.
    by apply deleteItem_absent. }
  split; [|split; [|split]].
  - intros x. rewrite Hstate, !LookupKey_index; simpl.
    rewrite drop_pair_index, !index_insert. case_decide as Hd; [|done].
    subst x. rewrite decide_True by done. rewrite <- LookupKey_index. by apply Hdel_v.
  - intros y. rewrite Hstate, !LookupValue_index; simpl.
    rewrite drop_pair_index, !index_insert. case_decide as Hd; [|done].
    subst y. rewrite decide_True by done. rewrite <- LookupValue_index. by apply Hdel_k.
  - intros Hk Hv. rewrite Hstate. rewrite LookupKey_index, LookupValue_index in *.
    rewrite !drop_pair_after_append by done. by destruct m.
  - intros Hk. rewrite Hstate. apply found_false; simpl.
    rewrite drop_pair_lookup_eq, index_insert, decide_True by done.
    unfold LookupKey. rewrite Hk. simpl. by rewrite deleteItem_single.
Qed.

(** X8. Deleting a second time finds nothing: [DeleteKey] and
    [DeleteValue] then return the empty list and change nothing, and a second
    [DeleteKeyValue] of the same pair leaves the state as the first left it. *)
Theorem deleting_twice m k v :
  DeleteKey (DeleteKey m k).2 k = ([], (DeleteKey m k).2)
  ∧ DeleteValue (DeleteValue m v).2 v = ([], (DeleteValue m v).2)
  ∧ DeleteKeyValue (DeleteKeyValue m k v) k v = DeleteKeyValue m k v.
Proof.
  split; [|split].
  - apply DeleteKey_absent. rewrite KeyExists_DeleteKey. by rewrite decide_True.
  - apply DeleteValue_absent. rewrite ValueExists_DeleteValue. by rewrite decide_True.
  - destruct (KeyExists m k) eqn:Ek, (ValueExists m v) eqn:Ev;
      try (rewrite (DeleteKeyValue_skip m) by auto; by apply DeleteKeyValue_skip; auto).
    rewrite (DeleteKeyValue_both m) by done.
    set (m' := {| forward := drop_pair (forward m) k v;
                  inverse := drop_pair (inverse m) v k |}).
    destruct (KeyExists m' k) eqn:Ek', (ValueExists m' v) eqn:Ev';
      try (by apply DeleteKeyValue_skip; auto).
    rewrite DeleteKeyValue_both by done. unfold m'; simpl.
    by rewrite !drop_pair_twice.
Qed.
End more_method_facts.

(** ** Further properties of [Merge] *)

Section more_Merge_facts.
Context {K V : Type} `{Countable K, Countable V}.
Implicit Types (m other src res : BiMultiMap K V) (k x : K) (v y : V).

Lemma filter_not_in_snoc (l vs : list V) v :
  v ∉ vs → filter (λ y, y ∉ l ++ [v]) vs = filter (λ y, y ∉ l) vs.
Proof.
  induction vs as [|y vs IH]; [done|]. intros [Hne Hnin]%not_elem_of_cons.
  destruct (decide (y ∈ l)) as [Hy|Hy].
  - rewrite !filter_cons_False; [by apply IH | tauto |].
    rewrite elem_of_app. tauto.
  - rewrite !filter_cons_True; [by rewrite IH | done |].
    rewrite elem_of_app, list_elem_of_singleton. intros [?|?]; [done | congruence].
Qed.

Lemma LookupKey_inner_other k vs res x :
  x ≠ k → LookupKey (foldl (λ res v, Add res k v) res vs) x = LookupKey res x.
Proof.
  intros Hne. revert res. induction vs as [|v vs IH]; intros res; simpl; [done|].
  rewrite IH, LookupKey_Add. by rewrite decide_False by (intros [? _]; done).
Qed.

Lemma LookupKey_inner_exact k vs res :
  NoDup vs →
  LookupKey (foldl (λ res v, Add res k v) res vs) k
  = LookupKey res k ++ filter (λ v, v ∉ LookupKey res k) vs.
Proof.
  intros Hnd. revert res. induction Hnd as [|v vs Hv Hnd IH]; intros res; simpl.
  - by rewrite app_nil_r.
  - rewrite IH, LookupKey_Add. destruct (decide (v ∈ LookupKey res k)) as [Hin|Hin].
    + rewrite decide_False by tauto. by rewrite filter_cons_False by tauto.
    + rewrite decide_True by done. rewrite filter_cons_True by done.
      rewrite filter_not_in_snoc by done. by rewrite <- app_assoc.
Qed.

Lemma LookupKey_add_all_exact src ks res k :
  NoDup ks → NoDup (LookupKey src k) →
  LookupKey (add_all src ks res) k
  = if decide (k ∈ ks)
    then LookupKey res k ++ filter (λ v, v ∉ LookupKey res k) (LookupKey src k)
    else LookupKey res k.
Proof.
  intros Hks Hsrc. unfold add_all. revert res.
  induction Hks as [|k0 ks Hk0 Hks IH]; intros res; simpl; [done|].
  rewrite IH. destruct (decide (k = k0)) as [->|Hne].
  - rewrite decide_False by done. rewrite decide_True by (by left).
    by apply LookupKey_inner_exact.
  - rewrite LookupKey_inner_other by done.
    destruct (decide (k ∈ ks)) as [Hin|Hin].
    + by rewrite decide_True by (by right).
    + rewrite decide_False; [done|]. rewrite elem_of_cons. tauto.
Qed.

Lemma LookupKey_add_all_Keys src ks res k :
  Keys src ks → NoDup (LookupKey src k) →
  LookupKey (add_all src ks res) k
  = LookupKey res k ++ filter (λ v, v ∉ LookupKey res k) (LookupKey src k).
Proof.
  intros Hks Hsrc. rewrite LookupKey_add_all_exact by eauto using Keys_NoDup.
  case_decide as Hin; [done|].
  rewrite (Keys_elem src ks k Hks) in Hin. apply not_true_is_false in Hin.
  rewrite (LookupKey_absent src k Hin). by rewrite app_nil_r.
Qed.

Lemma filter_not_in_nil (vs : list V) : filter (λ y, y ∉ []) vs = vs.
Proof.
  induction vs as [|y vs IH]; [done|].
  rewrite filter_cons_True by apply not_elem_of_nil. by rewrite IH.
Qed.

Lemma LookupKey_Merge_exact ks ks' m other k :
  Keys m ks → Keys other ks' →
  NoDup (LookupKey m k) → NoDup (LookupKey other k) →
  LookupKey (Merge ks ks' m other) k
  = LookupKey m k ++ filter (λ v, v ∉ LookupKey m k) (LookupKey other k).
Proof.
  intros Hks Hks' Hm Hother. unfold Merge.
  rewrite (LookupKey_add_all_Keys other) by done.
  rewrite (LookupKey_add_all_Keys m) by done.
  assert (LookupKey (New : BiMultiMap K V) k = []) as -> by done.
  simpl. by rewrite filter_not_in_nil.
Qed.

(** Only [Add] builds the result of the loops, so none of its entries holds
    an empty list. *)
Lemma compact_New : compact (New : BiMultiMap K V).
Proof. split; intros ?; simpl; by rewrite lookup_empty. Qed.

Lemma compact_Add m k v : compact m → compact (Add m k v).
Proof.
  intros [Hf Hi]. destruct (decide (v ∈ LookupKey m k)) as [Hin|Hin].
  - by rewrite Add_present.
  - rewrite Add_fresh by done. split; intros z; simpl.
    + destruct (decide (k = z)) as [<-|Hne].
      * rewrite lookup_insert_eq. intros [= E]. by destruct (LookupKey m k).
      * by rewrite lookup_insert_ne.
    + destruct (decide (v = z)) as [<-|Hne].
      * rewrite lookup_insert_eq. intros [= E]. by destruct (LookupValue m v).
      * by rewrite lookup_insert_ne.
Qed.

Lemma compact_DeleteKeyValue m k v : compact m → compact (DeleteKeyValue m k v).
Proof.
  intros [Hf Hi]. unfold DeleteKeyValue.
  destruct (_ && _); [|done]. split; intros z; simpl; by apply drop_pair_not_empty.
Qed.

Lemma compact_add_all src ks res : compact res → compact (add_all src ks res).
Proof.
  unfold add_all. revert res. induction ks as [|k ks IH]; intros res Hc; simpl; [done|].
  apply IH. clear IH. revert res Hc.
  induction (LookupKey src k) as [|v vs IHv]; intros res Hc; simpl; [done|].
  by apply IHv, compact_Add.
Qed.

Lemma compact_Merge ks ks' m other : compact (Merge ks ks' m other).
Proof. unfold Merge. apply compact_add_all, compact_add_all, compact_New. Qed.

Lemma compact_KeyExists m k : compact m → KeyExists m k = true ↔ LookupKey m k ≠ [].
Proof.
  intros [Hf _]. rewrite KeyExists_true. unfold LookupKey. specialize (Hf k).
  destruct (forward m !! k) as [[|v l]|]; split; try done; try by eauto.
Qed.

Lemma compact_ValueExists m v : compact m → ValueExists m v = true ↔ LookupValue m v ≠ [].
Proof.
  intros [_ Hi]. rewrite ValueExists_true. unfold LookupValue. specialize (Hi v).
  destruct (inverse m !! v) as [[|k l]|]; split; try done; try by eauto.
Qed.

Lemma not_nil_elem {T : Type} (l : list T) : l ≠ [] ↔ ∃ z, z ∈ l.
Proof.
  destruct l as [|z l]; split; try done.
  - by intros [? ?%elem_of_nil].
  - intros _. exists z. by left.
Qed.

(** X9. When the lists of a key repeat no value in either input, the list
    of that key in the result is the receiver's list followed by the values
    of [other] that the receiver lacks, in the order of [other]; the order in
    which the keys come does not enter. *)
Theorem Merge_forward_list ks ks' m other k :
  Keys m ks → Keys other ks' →
  NoDup (LookupKey m k) → NoDup (LookupKey other k) →
  LookupKey (Merge ks ks' m other) k
  = LookupKey m k ++ filter (λ v, v ∉ LookupKey m k) (LookupKey other k).
Proof. apply LookupKey_Merge_exact. Qed.

(** X10. Whatever the two orders in which the keys come, the results of
    [Merge] agree on every lookup up to the order of the list. *)
Theorem Merge_order_irrelevant ks1 ks1' ks2 ks2' m other :
  Keys m ks1 → Keys other ks1' → Keys m ks2 → Keys other ks2' →
  (∀ k, LookupKey (Merge ks1 ks1' m other) k ≡ₚ LookupKey (Merge ks2 ks2' m other) k)
  ∧ (∀ v, LookupValue (Merge ks1 ks1' m other) v ≡ₚ LookupValue (Merge ks2 ks2' m other) v)
  ∧ (∀ k, KeyExists (Merge ks1 ks1' m other) k = KeyExists (Merge ks2 ks2' m other) k)
  ∧ (∀ v, ValueExists (Merge ks1 ks1' m other) v = ValueExists (Merge ks2 ks2' m other) v).
Proof.
  intros H1 H1' H2 H2'.
  assert (∀ k v, v ∈ LookupKey (Merge ks1 ks1' m other) k
                 ↔ v ∈ LookupKey (Merge ks2 ks2' m other) k) as Hfwd.
  { intros k v. by rewrite !elem_LookupKey_Merge. }
  assert (∀ k v, k ∈ LookupValue (Merge ks1 ks1' m other) v
                 ↔ k ∈ LookupValue (Merge ks2 ks2' m other) v) as Hinv.
  { intros k v. rewrite (symmetric_Merge ks1 ks1' m other k v).
    rewrite (symmetric_Merge ks2 ks2' m other k v). apply Hfwd. }
  split; [|split; [|split]].
  - intros k. apply NoDup_Permutation; [apply distinct_Merge.. | intros v; apply Hfwd].
  - intros v. apply NoDup_Permutation; [apply distinct_Merge.. | intros k; apply Hinv].
  - intros k. apply eq_true_iff_eq.
    rewrite !compact_KeyExists by apply compact_Merge.
    rewrite !not_nil_elem. by setoid_rewrite Hfwd.
  - intros v. apply eq_true_iff_eq.
    rewrite !compact_ValueExists by apply compact_Merge.
    rewrite !not_nil_elem. by setoid_rewrite Hinv.
Qed.

(** X11. The result of [Merge] has an entry for a key exactly when one of
    the inputs lists a value for it, and for a value exactly when one of the
    inputs lists it for some key: entries with an empty list are not carried
    over. *)
Theorem Merge_entries ks ks' m other :
  Keys m ks → Keys other ks' →
  (∀ k, KeyExists (Merge ks ks' m other) k = true
        ↔ LookupKey m k ≠ [] ∨ LookupKey other k ≠ [])
  ∧ (∀ v, ValueExists (Merge ks ks' m other) v = true
          ↔ ∃ k, v ∈ LookupKey m k ∨ v ∈ LookupKey other k).
Proof.
  intros Hks Hks'. split.
  - intros k. rewrite compact_KeyExists by apply compact_Merge.
    rewrite !not_nil_elem. setoid_rewrite (elem_LookupKey_Merge ks ks' m other k); [|done..].
    naive_solver.
  - intros v. rewrite compact_ValueExists by apply compact_Merge.
    rewrite not_nil_elem.
    split; intros [k Hk]; exists k.
    + by apply (elem_LookupKey_Merge ks ks' m other), (symmetric_Merge ks ks' m other).
    + by apply (symmetric_Merge ks ks' m other), (elem_LookupKey_Merge ks ks' m other).
Qed.
End more_Merge_facts.

(** ** Calls that leave no empty list, and the list helper *)

Section more_invariants.
Context {K V : Type} `{Countable K, Countable V}.
Implicit Types (m : BiMultiMap K V) (k : K) (v : V).

Lemma compact_run (c : call K V) m : tidy c = true → compact m → compact (run c m).
Proof.
  destruct c; simpl; intros Ht Hc; try done;
    first [by apply compact_Add | by apply compact_DeleteKeyValue | apply compact_New].
Qed.

Lemma compact_history (cs : list (call K V)) :
  Forall (λ c, tidy c = true) cs → compact (history cs).
Proof.
  unfold history. induction cs as [|c cs IH] using rev_ind; intros Hcs; simpl.
  - apply compact_New.
  - apply Forall_app in Hcs as [Hcs Hc].
    rewrite foldl_app; simpl. apply compact_run; [by inversion Hc | auto].
Qed.

(** X12. After any sequence of [Add], [DeleteKeyValue] and [Clear] calls on
    a new structure, a key exists exactly when its list is not empty, and so
    does a value: only [DeleteKey] and [DeleteValue] leave entries with an
    empty list. *)
Theorem tidy_calls_leave_no_empty_list (cs : list (call K V)) k v :
  Forall (λ c, tidy c = true) cs →
  (KeyExists (history cs) k = true ↔ LookupKey (history cs) k ≠ [])
  ∧ (ValueExists (history cs) v = true ↔ LookupValue (history cs) v ≠ []).
Proof.
  intros Hcs%compact_history. split.
  - by apply compact_KeyExists.
  - by apply compact_ValueExists.
Qed.

End more_invariants.

(** ** Further facts about the earlier copy *)

Section more_legacy_facts.
Context {K V : Type} `{Countable K, Countable V}.
Implicit Types (m : BiMultiMap K V) (k : K) (v : V).

Lemma legacy_deleteElement_None {T : Type} `{EqDecision T} (s : list T) (x : T) :
  Legacy.deleteElement s x = None ↔ s = [].
Proof. unfold Legacy.deleteElement. by destruct s. Qed.

Lemma legacy_deleteElement_not_nil {T : Type} `{EqDecision T} (s : list T) (x : T) :
  s ≠ [] → Legacy.deleteElement s x = Some (deleteItem s x).
Proof.
  intros Hs. destruct (Legacy.deleteElement s x) as [l|] eqn:E.
  - by apply legacy_deleteElement_Some in E as [-> _].
  - by apply legacy_deleteElement_None in E.
Qed.

Lemma legacy_replace_or_delete_None {A B : Type} `{Countable A} `{EqDecision B}
    (idx : gmap A (list B)) (a : A) (b : B) :
  Legacy.replace_or_delete idx a b = None ↔ index idx a = [].
Proof.
  unfold Legacy.replace_or_delete. rewrite <- (legacy_deleteElement_None _ b).
  by destruct (Legacy.deleteElement (index idx a) b).
Qed.

Lemma legacy_purge_each_returns {A B : Type} `{Countable A} `{EqDecision B}
    (b : B) (idx : gmap A (list B)) (range : list A) :
  NoDup range → (∀ x, x ∈ range → index idx x ≠ []) →
  Legacy.purge_each b idx range = Some (purge b idx range).
Proof.
  unfold Legacy.purge_each, purge. intros Hnd. revert idx.
  induction Hnd as [|x range Hx Hnd IH]; intros idx Hfull; simpl; [done|].
  rewrite legacy_deleteElement_not_nil by (apply Hfull; by left). simpl.
  apply IH. intros y Hy. rewrite index_insert.
  rewrite decide_False by (intros ->; done). apply Hfull. by right.
Qed.

(** X15. The earlier copy's [DeleteKeyValue] panics exactly when the key
    and the value both have an entry and one of the two lists is empty. *)
Theorem legacy_DeleteKeyValue_panic_iff m k v :
  Legacy.DeleteKeyValue m k v = None
  ↔ KeyExists m k = true ∧ ValueExists m v = true
    ∧ (LookupKey m k = [] ∨ LookupValue m v = []).
Proof.
  unfold Legacy.DeleteKeyValue, KeyExists, ValueExists.
  rewrite LookupKey_index, LookupValue_index.
  rewrite <- (legacy_replace_or_delete_None (forward m) k v).
  rewrite <- (legacy_replace_or_delete_None (inverse m) v k).
  destruct (found (forward m) k), (found (inverse m) v); simpl;
    try (split; [done | by intros (? & ? & ?)]).
  destruct (Legacy.replace_or_delete (forward m) k v),
    (Legacy.replace_or_delete (inverse m) v k); simpl; naive_solver.
Qed.

(** X16. On a state whose indices mirror each other and repeat nothing,
    the earlier copy's [DeleteKey] and [DeleteValue] do not panic: they return
    what the present ones return. *)
Theorem legacy_deletions_return m k v :
  symmetric m → distinct m →
  Legacy.DeleteKey m k = Some (DeleteKey m k)
  ∧ Legacy.DeleteValue m v = Some (DeleteValue m v).
Proof.
  intros Hs [Hdk Hdv]. split.
  - specialize (Hdk k). unfold Legacy.DeleteKey, DeleteKey.
    assert (∀ y, y ∈ LookupKey m k → index (inverse m) y ≠ []) as Hfull.
    { intros y Hy%Hs. rewrite <- LookupValue_index. intros E.
      rewrite E in Hy. by apply elem_of_nil in Hy. }
    unfold LookupKey in *. destruct (forward m !! k) as [values|]; [|done].
    by rewrite legacy_purge_each_returns.
  - specialize (Hdv v). unfold Legacy.DeleteValue, DeleteValue.
    assert (∀ x, x ∈ LookupValue m v → index (forward m) x ≠ []) as Hfull.
    { intros x Hx%Hs. rewrite <- LookupKey_index. intros E.
      rewrite E in Hx. by apply elem_of_nil in Hx. }
    unfold LookupValue in *. destruct (inverse m !! v) as [keys|]; [|done].
    by rewrite legacy_purge_each_returns.
Qed.
End more_legacy_facts.

(** ** The further properties on the fixtures *)

(** Closes a decidable statement about concrete structures by evaluation. *)
Ltac by_evaluation := apply (bool_decide_unpack _); vm_compute; exact I.

Lemma Keys_fixture : Keys biMultiMapWithMultipleKeysValues ["key2"; "key1"].
Proof. unfold Keys. by_evaluation. Defined.

Lemma Keys_fixture_sorted : Keys biMultiMapWithMultipleKeysValues ["key1"; "key2"].
Proof. unfold Keys. by_evaluation. Defined.

Lemma Values_fixture : Values biMultiMapWithMultipleKeysValues ["value2"; "value1"].
Proof. unfold Values. by_evaluation. Defined.

Lemma Keys_map2 : Keys map2 ["key4"; "key1"; "key3"].
Proof. unfold Keys. by_evaluation. Defined.

Lemma Keys_map2_sorted : Keys map2 ["key1"; "key3"; "key4"].
Proof. unfold Keys. by_evaluation. Defined.


Lemma enumerations_cover_lookups_witness :
  reachable biMultiMapWithMultipleKeysValues
  ∧ "value1" ∈ LookupKey biMultiMapWithMultipleKeysValues "key1"
  ∧ "key1" ∈ ["key2"; "key1"] ∧ "value1" ∈ ["value2"; "value1"].
Proof.
  assert ("value1" ∈ LookupKey biMultiMapWithMultipleKeysValues "key1") as Hin
    by (vm_compute; left).
  split; [apply reachable_history|]. split; [exact Hin|].
  exact (enumerations_cover_lookups _ _ _ "key1" "value1"
           (reachable_history _) Keys_fixture Values_fixture (or_introl Hin)).
Defined.

Lemma Add_frame_and_order_witness :
  ("value3" ∉ LookupKey biMultiMapWithMultipleKeysValues "key1")
  ∧ LookupKey (Add biMultiMapWithMultipleKeysValues "key1" "value3") "key1"
    = ["value1"; "value2"; "value3"]
  ∧ LookupValue (Add biMultiMapWithMultipleKeysValues "key1" "value3") "value3" = ["key1"]
  ∧ LookupKey (Add biMultiMapWithMultipleKeysValues "key1" "value3") "key2"
    = LookupKey biMultiMapWithMultipleKeysValues "key2"
  ∧ Add biMultiMapWithMultipleKeysValues "key1" "value1" = biMultiMapWithMultipleKeysValues.
Proof.
  assert ("value3" ∉ LookupKey biMultiMapWithMultipleKeysValues "key1") as Hnin.
  { apply Contains_false. by vm_compute. }
  assert ("value1" ∈ LookupKey biMultiMapWithMultipleKeysValues "key1") as Hin
    by (vm_compute; left).
  destruct (Add_frame_and_order biMultiMapWithMultipleKeysValues "key1" "value3")
    as (Hother & _ & _ & Hnew).
  destruct (Add_frame_and_order biMultiMapWithMultipleKeysValues "key1" "value1")
    as (_ & _ & Hold & _).
  destruct (Hnew Hnin) as [Hk Hv].
  split; [exact Hnin|]. split; [by rewrite Hk|]. split; [by rewrite Hv|].
  split; [by apply Hother | exact (Hold Hin)].
Defined.

Lemma deletions_clear_everywhere_witness :
  reachable biMultiMapWithMultipleKeysValues
  ∧ LookupValue (DeleteKey biMultiMapWithMultipleKeysValues "key1").2 "value2" = ["key2"]
  ∧ KeyExists (DeleteKey biMultiMapWithMultipleKeysValues "key1").2 "key1" = false
  ∧ LookupKey (DeleteValue biMultiMapWithMultipleKeysValues "value1").2 "key2" = ["value2"]
  ∧ ValueExists (DeleteValue biMultiMapWithMultipleKeysValues "value1").2 "value1" = false.
Proof.
  destruct (deletions_clear_everywhere biMultiMapWithMultipleKeysValues "key1" "value1"
              (reachable_history _)) as [(Hk & _ & _ & Hgone_k) (Hv & _ & _ & Hgone_v)].
  split; [apply reachable_history|]. split; [by rewrite Hk|]. split; [exact Hgone_k|].
  split; [by rewrite Hv | exact Hgone_v].
Defined.

Lemma deletions_keep_mirror_entries_witness :
  reachable biMultiMapWithMultipleKeysValues
  ∧ ValueExists (DeleteKey biMultiMapWithMultipleKeysValues "key1").2 "value1"
    = ValueExists biMultiMapWithMultipleKeysValues "value1"
  ∧ KeyExists (DeleteValue biMultiMapWithMultipleKeysValues "value1").2 "key1"
    = KeyExists biMultiMapWithMultipleKeysValues "key1".
Proof.
  destruct (deletions_keep_mirror_entries biMultiMapWithMultipleKeysValues "key1" "value1"
              (reachable_history _)) as [Hv Hk].
  split; [apply reachable_history|]. split; [apply Hv | apply Hk].
Defined.

Lemma DeleteKeyValue_removes_pair_witness :
  reachable biMultiMapWithMultipleKeysValues
  ∧ LookupKey (DeleteKeyValue biMultiMapWithMultipleKeysValues "key1" "value1") "key1"
    = ["value2"]
  ∧ LookupValue (DeleteKeyValue biMultiMapWithMultipleKeysValues "key1" "value1") "value1"
    = ["key2"].
Proof.
  destruct (DeleteKeyValue_removes_pair biMultiMapWithMultipleKeysValues "key1" "value1"
              (reachable_history _)) as (Hk & Hv & _).
  split; [apply reachable_history|]. split; [by rewrite Hk | by rewrite Hv].
Defined.

Lemma Add_DeleteKeyValue_roundtrip_witness :
  reachable single
  ∧ ("value9" ∉ LookupKey single "key")
  ∧ DeleteKeyValue (Add single "key" "value9") "key" "value9" = single
  ∧ reachable emptied
  ∧ ("value2" ∉ LookupKey emptied "key")
  ∧ LookupKey (DeleteKeyValue (Add emptied "key" "value2") "key" "value2") "key"
    = LookupKey emptied "key"
  ∧ KeyExists emptied "key" = true
  ∧ KeyExists (DeleteKeyValue (Add emptied "key" "value2") "key" "value2") "key" = false.
Proof.
  assert ("value9" ∉ LookupKey single "key") as Hnin.
  { apply Contains_false. by vm_compute. }
  assert ("value2" ∉ LookupKey emptied "key") as Hnin'.
  { apply Contains_false. by vm_compute. }
  destruct (Add_DeleteKeyValue_roundtrip single "key" "value9" (reachable_history _) Hnin)
    as (_ & _ & Hsame & _).
  destruct (Add_DeleteKeyValue_roundtrip emptied "key" "value2" (reachable_history _) Hnin')
    as (Hlookup & _ & _ & Hdropped).
  split; [apply reachable_history|]. split; [exact Hnin|].
  split; [apply Hsame; by vm_compute|].
  split; [apply reachable_history|]. split; [exact Hnin'|].
  split; [apply Hlookup|]. split; [by vm_compute|].
  apply Hdropped. by vm_compute.
Defined.

Lemma Merge_forward_list_witness :
  Keys biMultiMapWithMultipleKeysValues ["key2"; "key1"]
  ∧ Keys map2 ["key4"; "key1"; "key3"]
  ∧ NoDup (LookupKey biMultiMapWithMultipleKeysValues "key1")
  ∧ NoDup (LookupKey map2 "key1")
  ∧ LookupKey (Merge ["key2"; "key1"] ["key4"; "key1"; "key3"]
                 biMultiMapWithMultipleKeysValues map2) "key1"
    = LookupKey biMultiMapWithMultipleKeysValues "key1"
      ++ filter (λ v, v ∉ LookupKey biMultiMapWithMultipleKeysValues "key1")
           (LookupKey map2 "key1").
Proof.
  assert (NoDup (LookupKey biMultiMapWithMultipleKeysValues "key1")) as Hnd by by_evaluation.
  assert (NoDup (LookupKey map2 "key1")) as Hnd' by by_evaluation.
  split; [exact Keys_fixture|]. split; [exact Keys_map2|].
  split; [exact Hnd|]. split; [exact Hnd'|].
  exact (Merge_forward_list _ _ _ _ "key1" Keys_fixture Keys_map2 Hnd Hnd').
Defined.

Lemma Merge_order_irrelevant_witness :
  Keys biMultiMapWithMultipleKeysValues ["key2"; "key1"]
  ∧ Keys map2 ["key4"; "key1"; "key3"]
  ∧ Keys biMultiMapWithMultipleKeysValues ["key1"; "key2"]
  ∧ Keys map2 ["key1"; "key3"; "key4"]
  ∧ LookupValue (Merge ["key2"; "key1"] ["key4"; "key1"; "key3"]
                   biMultiMapWithMultipleKeysValues map2) "value1"
    ≡ₚ LookupValue (Merge ["key1"; "key2"] ["key1"; "key3"; "key4"]
                      biMultiMapWithMultipleKeysValues map2) "value1"
  ∧ LookupValue (Merge ["key2"; "key1"] ["key4"; "key1"; "key3"]
                   biMultiMapWithMultipleKeysValues map2) "value1"
    ≠ LookupValue (Merge ["key1"; "key2"] ["key1"; "key3"; "key4"]
                     biMultiMapWithMultipleKeysValues map2) "value1".
Proof.
  destruct (Merge_order_irrelevant _ _ _ _ biMultiMapWithMultipleKeysValues map2
              Keys_fixture Keys_map2 Keys_fixture_sorted Keys_map2_sorted)
    as (_ & Hinv & _).
  split; [exact Keys_fixture|]. split; [exact Keys_map2|].
  split; [exact Keys_fixture_sorted|]. split; [exact Keys_map2_sorted|].
  split; [apply Hinv | by vm_compute].
Defined.

Lemma Merge_entries_witness :
  Keys emptied ["key2"; "key"]
  ∧ Keys single ["key"]
  ∧ KeyExists emptied "key" = true
  ∧ (KeyExists (Merge ["key2"; "key"] ["key"] emptied single) "key2" = true
     ↔ LookupKey emptied "key2" ≠ [] ∨ LookupKey single "key2" ≠ [])
  ∧ (KeyExists (Merge ["key2"; "key"] ["key2"; "key"] emptied emptied) "key" = true
     ↔ LookupKey emptied "key" ≠ [] ∨ LookupKey emptied "key" ≠ [])
  ∧ KeyExists (Merge ["key2"; "key"] ["key2"; "key"] emptied emptied) "key" = false.
Proof.
  assert (Keys emptied ["key2"; "key"]) as Hks by (unfold Keys; by_evaluation).
  assert (Keys single ["key"]) as Hks' by (unfold Keys; by_evaluation).
  split; [exact Hks|]. split; [exact Hks'|]. split; [by vm_compute|].
  split; [apply (Merge_entries _ _ emptied single Hks Hks')|].
  split; [apply (Merge_entries _ _ emptied emptied Hks Hks) | by vm_compute].
Defined.

Lemma tidy_calls_leave_no_empty_list_witness :
  Forall (λ c : call string string, tidy c = true)
    [CallAdd "key" "value"; CallAdd "key" "value2"; CallDeleteKeyValue "key" "value"]
  ∧ (KeyExists (history [CallAdd "key" "value"; CallAdd "key" "value2";
                         CallDeleteKeyValue "key" "value"]) "key" = true
     ↔ LookupKey (history [CallAdd "key" "value"; CallAdd "key" "value2";
                           CallDeleteKeyValue "key" "value"]) "key" ≠ [])
  ∧ (ValueExists (history [CallAdd "key" "value"; CallAdd "key" "value2";
                           CallDeleteKeyValue "key" "value"]) "value" = true
     ↔ LookupValue (history [CallAdd "key" "value"; CallAdd "key" "value2";
                             CallDeleteKeyValue "key" "value"]) "value" ≠ []).
Proof.
  assert (Forall (λ c : call string string, tidy c = true)
            [CallAdd "key" "value"; CallAdd "key" "value2";
             CallDeleteKeyValue "key" "value"]) as Hcs by (repeat constructor).
  split; [exact Hcs|].
  exact (tidy_calls_leave_no_empty_list _ "key" "value" Hcs).
Defined.

Lemma legacy_deletions_agree_witness :
  ∃ r m',
    Legacy.DeleteKey biMultiMapWithMultipleKeysValues "key1" = Some r
    ∧ r = DeleteKey biMultiMapWithMultipleKeysValues "key1"
    ∧ Legacy.DeleteKeyValue biMultiMapWithMultipleKeysValues "key1" "value1" = Some m'
    ∧ m' = DeleteKeyValue biMultiMapWithMultipleKeysValues "key1" "value1".
Proof.
  destruct (legacy_deletions_agree biMultiMapWithMultipleKeysValues "key1" "value1")
    as (Hk & _ & Hkv).
  assert (Legacy.DeleteKey biMultiMapWithMultipleKeysValues "key1"
          = Some (DeleteKey biMultiMapWithMultipleKeysValues "key1")) as Ek
    by (by vm_compute).
  assert (Legacy.DeleteKeyValue biMultiMapWithMultipleKeysValues "key1" "value1"
          = Some (DeleteKeyValue biMultiMapWithMultipleKeysValues "key1" "value1")) as Ekv
    by (by vm_compute).
  eexists _, _. split; [exact Ek|]. split; [exact (Hk _ Ek)|].
  split; [exact Ekv | exact (Hkv _ Ekv)].
Defined.

Lemma legacy_deletions_return_witness :
  symmetric biMultiMapWithMultipleKeysValues
  ∧ distinct biMultiMapWithMultipleKeysValues
  ∧ Legacy.DeleteKey biMultiMapWithMultipleKeysValues "key1"
    = Some (DeleteKey biMultiMapWithMultipleKeysValues "key1")
  ∧ Legacy.DeleteValue biMultiMapWithMultipleKeysValues "value1"
    = Some (DeleteValue biMultiMapWithMultipleKeysValues "value1").
Proof.
  destruct (reachable_invariants biMultiMapWithMultipleKeysValues (reachable_history _))
    as [Hs Hd].
  split; [exact Hs|]. split; [exact Hd|].
  exact (legacy_deletions_return _ "key1" "value1" Hs Hd).
Defined.
